(** * Huffman coding tree (huffmantree.cpp): model and verified properties

    The development embeds the structs [CountNode], [HuffmanTreeNode] and
    [HuffmanTree] of [src/Huffman Coding Tree/huffmantree.cpp] and proves
    properties of [encode], [reconstructTree] and [decode].

    Conventions.
    - A [char] is an [ascii]; a [std::string] and the content of a file
      are lists of characters ([text]).
    - An [int] is a [Z]; additions go through [int_add], which writes out
      the 32-bit two's complement wrap-around.  (In C++ the overflow of an
      [int] is undefined; the statements about counts are made for inputs
      whose length an [int] can hold, where no addition overflows.)
    - A [CountNode*] is a [CountNodePtr]: [nullptr] or an owned node.  The
      trees of the program are never shared, so functional trees are exact.
      [delete] is not modelled.  The statements are about objects whose
      member [root] has a value; [struct HuffmanTree] declares no
      constructor and gives [root] no initialiser, so the object of
      [main] ([HuffmanTree tree;]) is not one of them, and of [main] only
      the part before the object is used is modelled.
    - [std::unordered_map] is a [gmap]; the order in which a range-for
      visits it is left open ([UnorderedMapOrder]).
    - [std::priority_queue] is an interface ([PriorityQueue]) that fixes
      what the standard fixes and leaves the choice among equal counts open.
    - Files: for the member functions the input file is its content and
      the output file an [ofstream] value that records whether it has
      been opened (created) and what has been written; [encode_file] and
      [decode_file] add the names and a map from names to contents. *)

From Stdlib Require Import ZArith Lia Ascii.
From stdpp Require Import base list gmap strings fin_maps.

Abbreviation text := (list ascii).

(** ** Machine integers *)

Definition INT_MAX : Z := 2147483647.
Definition INT_MIN : Z := -2147483648.

Definition wrap_int (z : Z) : Z := ((z + 2 ^ 31) `mod` 2 ^ 32 - 2 ^ 31)%Z.
Definition int_add (a b : Z) : Z := wrap_int (a + b).

(** ** Characters *)

Definition newline : ascii := "010"%char.
Definition char0 : ascii := "0"%char.
Definition char1 : ascii := "1"%char.

Definition char_code (c : ascii) : Z := Z.of_N (N_of_ascii c).

(** [isspace] in the "C" locale, the one an [ifstream] starts with: the
    space and the five control characters from tab to carriage return. *)
Definition isspace (c : ascii) : bool :=
  let n := char_code c in
  ((n =? 32) || ((9 <=? n) && (n <=? 13)))%Z.

(** the value of a decimal digit *)
Definition digit_value (c : ascii) : option Z :=
  let n := char_code c in
  if ((48 <=? n) && (n <=? 57))%Z then Some (n - 48)%Z else None.

(** ** Nodes: [struct CountNode] and [struct HuffmanTreeNode : CountNode] *)

Inductive CountNodePtr : Type :=
| nullptr
| CountNode (count : Z) (left right : CountNodePtr)
| HuffmanTreeNode (letter : ascii) (count : Z) (left right : CountNodePtr).

(** [p->count], [p->left], [p->right]; the program never evaluates them on
    [nullptr]. *)
Definition count (p : CountNodePtr) : Z :=
  match p with
  | nullptr => 0
  | CountNode c _ _ | HuffmanTreeNode _ c _ _ => c
  end.

Definition left_of (p : CountNodePtr) : CountNodePtr :=
  match p with
  | nullptr => nullptr
  | CountNode _ l _ | HuffmanTreeNode _ _ l _ => l
  end.

Definition right_of (p : CountNodePtr) : CountNodePtr :=
  match p with
  | nullptr => nullptr
  | CountNode _ _ r | HuffmanTreeNode _ _ _ r => r
  end.

(** [p->left = q] and [p->right = q] *)
Definition set_left (p q : CountNodePtr) : CountNodePtr :=
  match p with
  | nullptr => nullptr
  | CountNode c _ r => CountNode c q r
  | HuffmanTreeNode ch c _ r => HuffmanTreeNode ch c q r
  end.

Definition set_right (p q : CountNodePtr) : CountNodePtr :=
  match p with
  | nullptr => nullptr
  | CountNode c l _ => CountNode c l q
  | HuffmanTreeNode ch c l _ => HuffmanTreeNode ch c l q
  end.

Definition is_null (p : CountNodePtr) : bool :=
  match p with nullptr => true | _ => false end.

(** [new CountNode()] and [new HuffmanTreeNode(ch, c)] *)
Definition new_CountNode : CountNodePtr := CountNode 0 nullptr nullptr.
Definition new_HuffmanTreeNode (ch : ascii) (c : Z) : CountNodePtr :=
  HuffmanTreeNode ch c nullptr nullptr.

(** [CountNode::traverseForCodeMap] with the override of
    [HuffmanTreeNode]: a plain node descends into the children it has, a
    letter node stores its path and does not descend. *)
Fixpoint traverseForCodeMap (p : CountNodePtr) (codeMap : gmap ascii text)
    (prefixBits : text) : gmap ascii text :=
  match p with
  | nullptr => codeMap
  | CountNode _ l r =>
      let codeMap := traverseForCodeMap l codeMap (prefixBits ++ [char0]) in
      traverseForCodeMap r codeMap (prefixBits ++ [char1])
  | HuffmanTreeNode letter _ _ _ => <[letter := prefixBits]> codeMap
  end.

(** [CountNode::NodeComparison]: the "less" of the priority queue. *)
Definition NodeComparison (node1 node2 : CountNodePtr) : bool :=
  (count node2 <? count node1)%Z.

(** ** The standard containers *)

(** The order in which a range-for visits an [unordered_map<char, V>]:
    some enumeration of its entries. *)
Class UnorderedMapOrder := {
  um_items : ∀ {V : Type}, gmap ascii V → list (ascii * V);
  um_items_perm : ∀ {V : Type} (m : gmap ascii V), um_items m ≡ₚ map_to_list m
}.

(** [priority_queue<CountNode*, vector<CountNode*>, NodeComparison>].
    [pq_elems] is the underlying vector. [top] is an element that
    [NodeComparison] puts below no other one; [pop] removes it. *)
Class PriorityQueue := {
  pq : Type;
  pq_empty : pq;
  pq_push : CountNodePtr → pq → pq;
  pq_top : pq → CountNodePtr;
  pq_pop : pq → pq;
  pq_elems : pq → list CountNodePtr;
  pq_elems_empty : pq_elems pq_empty = [];
  pq_elems_push : ∀ x q, pq_elems (pq_push x q) ≡ₚ x :: pq_elems q;
  pq_top_pop : ∀ q, pq_elems q ≠ [] → pq_elems q ≡ₚ pq_top q :: pq_elems (pq_pop q);
  pq_top_first : ∀ q y, y ∈ pq_elems q → NodeComparison (pq_top q) y = false
}.

Definition pq_size `{PriorityQueue} (q : pq) : nat := length (pq_elems q).
Definition pq_is_empty `{PriorityQueue} (q : pq) : bool :=
  match pq_elems q with [] => true | _ => false end.

(** ** Streams *)

Record ofstream := { opened : bool; written : text }.

Definition ofstream_open : ofstream := {| opened := true; written := [] |}.
Definition put (out : ofstream) (s : text) : ofstream :=
  {| opened := opened out; written := written out ++ s |}.
Definition endl (out : ofstream) : ofstream := put out [newline].

(** [getline(input, line)]: fails at end of file; otherwise the line is
    what precedes the next newline (or the end), and the newline is
    consumed. *)
Fixpoint read_line (input : text) : text * text :=
  match input with
  | [] => ([], [])
  | c :: rest =>
      if decide (c = newline) then ([], rest)
      else let '(line, rest') := read_line rest in (c :: line, rest')
  end.

Definition getline (input : text) : option (text * text) :=
  match input with
  | [] => None
  | _ => Some (read_line input)
  end.

(** ** [std::stoi] *)

Inductive exn := invalid_argument | out_of_range.

Fixpoint skip_space (s : text) : text :=
  match s with
  | c :: s' => if isspace c then skip_space s' else s
  | [] => []
  end.

(** the value of the longest prefix of digits, and how many there are *)
Fixpoint read_digits (s : text) (acc : Z) (n : nat) : Z * nat :=
  match s with
  | c :: s' =>
      match digit_value c with
      | Some d => read_digits s' (10 * acc + d)%Z (S n)
      | None => (acc, n)
      end
  | [] => (acc, n)
  end.

(** the optional sign *)
Definition read_sign (s : text) : bool * text :=
  match s with
  | "-"%char :: s' => (true, s')
  | "+"%char :: s' => (false, s')
  | _ => (false, s)
  end.

(** [stoi(s)], base 10: white space, an optional sign, digits; no digit is
    [invalid_argument], a value outside [int] is [out_of_range] *)
Definition stoi (s : text) : exn + Z :=
  let s := skip_space s in
  let '(negative, s) := read_sign s in
  let '(v, n) := read_digits s 0 0 in
  match n with
  | O => inl invalid_argument
  | _ =>
      let v := if negative then (- v)%Z else v in
      if decide (INT_MIN ≤ v ≤ INT_MAX)%Z then inr v else inl out_of_range
  end.

(** ** Outcomes

    The member functions return normally or leave through an exception that
    nothing catches ([std::terminate]).  [Thrown] keeps the state at the
    throw, so that the order of the effects can be stated.  [OutOfFuel] is
    the bounded loop's artefact; [reconstructTree] and [decode] never
    produce it (lemmas [reconstructTree_fuel], [decode_fuel]). *)
Inductive outcome (A : Type) : Type :=
| Returned (a : A)
| Thrown (e : exn) (a : A)
| OutOfFuel.
Arguments Returned {A} a.
Arguments Thrown {A} e a.
Arguments OutOfFuel {A}.

Section Program.
Context `{UMO : UnorderedMapOrder} `{PQ : PriorityQueue}.

(** ** [struct HuffmanTree] *)

Record HuffmanTree := {
  root : CountNodePtr;
  nodeHeap : pq;
  codeMap : gmap ascii text;
  reverseCodeMap : gmap text ascii
}.

(** An object with a null [root] and the containers empty, as
    [HuffmanTree tree{};] makes it.  ([HuffmanTree tree;], as [main]
    has it, leaves [root] without a value.) *)
Definition HuffmanTree_init : HuffmanTree :=
  {| root := nullptr; nodeHeap := pq_empty; codeMap := ∅; reverseCodeMap := ∅ |}.

(** *** [countCharFrequencies] *)

Fixpoint count_chars (input : text) (charCounts : gmap ascii Z) : gmap ascii Z :=
  match input with
  | [] => charCounts
  | ch :: input' =>
      count_chars input'
        (match charCounts !! ch with
         | Some n => <[ch := int_add n 1]> charCounts
         | None => <[ch := 1%Z]> charCounts
         end)
  end.

Definition push_leaves (items : list (ascii * Z)) (h : pq) : pq :=
  fold_left (λ h p, pq_push (new_HuffmanTreeNode p.1 p.2) h) items h.

Definition countCharFrequencies (t : HuffmanTree) (file : text) : HuffmanTree :=
  let charCounts := count_chars file ∅ in
  if decide (charCounts = ∅) then t
  else {| root := root t;
          nodeHeap := push_leaves (um_items charCounts) (nodeHeap t);
          codeMap := codeMap t;
          reverseCodeMap := reverseCodeMap t |}.

(** *** [buildTree] *)

(** one round of [while (nodeHeap.size() > 1)] *)
Definition merge_step (h : pq) : pq :=
  let r := pq_top h in
  let h := pq_pop h in
  let l := pq_top h in
  let h := pq_pop h in
  pq_push (CountNode (int_add (count r) (count l)) l r) h.

(** the loop, at most [n] rounds; every round takes one node off the
    heap, so [pq_size h] rounds are enough (lemma [build_loop_size]) *)
Fixpoint build_loop (n : nat) (h : pq) : pq :=
  match n with
  | O => h
  | S n' => if decide (1 < pq_size h) then build_loop n' (merge_step h) else h
  end.

Definition buildTree (t : HuffmanTree) : HuffmanTree :=
  let h := nodeHeap t in
  if pq_is_empty h then t
  else
    let r := pq_top h in
    let h := pq_pop h in
    let root0 := CountNode (count r) nullptr r in
    let '(root0, h) :=
      if pq_is_empty h then (root0, h)
      else (CountNode (int_add (count root0) (count (pq_top h))) (pq_top h) r,
            pq_pop h) in
    let h := pq_push root0 h in
    let h := build_loop (pq_size h) h in
    let root1 := pq_top h in
    let h := pq_pop h in
    {| root := root1;
       nodeHeap := h;
       codeMap := traverseForCodeMap root1 ∅ [];
       reverseCodeMap := reverseCodeMap t |}.

(** *** [encode] *)

(** [codeMap[ch]]: [operator[]] enters an empty string for a missing key *)
Definition index_codeMap (codeMap : gmap ascii text) (ch : ascii)
    : text * gmap ascii text :=
  match codeMap !! ch with
  | Some s => (s, codeMap)
  | None => ([], <[ch := []]> codeMap)
  end.

Definition write_table (items : list (ascii * text)) (output : ofstream) : ofstream :=
  fold_left (λ out p, endl (put (put out [p.1]) p.2)) items output.

Fixpoint write_payload (input : text) (codeMap : gmap ascii text)
    (output : ofstream) : gmap ascii text * ofstream :=
  match input with
  | [] => (codeMap, output)
  | ch :: input' =>
      let '(s, codeMap) := index_codeMap codeMap ch in
      write_payload input' codeMap (put output s)
  end.

Definition encode (t : HuffmanTree) (file : text) : HuffmanTree * ofstream :=
  let output := ofstream_open in
  let t := countCharFrequencies t file in
  let t := buildTree t in
  let output := write_table (um_items (codeMap t)) output in
  let output := endl output in
  let '(cm, output) := write_payload file (codeMap t) output in
  ({| root := root t; nodeHeap := nodeHeap t; codeMap := cm;
      reverseCodeMap := reverseCodeMap t |}, output).

(** *** [reconstructTree] *)

(** What the function has in hand: the members, its local [root] (which
    hides the member) and the rest of the stream. *)
Record reconstruction := {
  members : HuffmanTree;
  local_root : CountNodePtr;
  input_rest : text
}.

(** The descent for one record, from [current]: [n] rounds of
    [while (length-- > 1)], then the final assignment of the letter node. *)
Fixpoint place_letter (n : nat) (binary : Z) (ch : ascii)
    (current : CountNodePtr) : CountNodePtr :=
  match n with
  | O =>
      if decide (Z.land binary 1 = 1%Z)
      then set_right current (new_HuffmanTreeNode ch 0)
      else set_left current (new_HuffmanTreeNode ch 0)
  | S n' =>
      if decide (Z.land binary 1 = 1%Z) then
        let next := if is_null (right_of current) then new_CountNode
                    else right_of current in
        set_right current (place_letter n' (Z.shiftr binary 1) ch next)
      else
        let next := if is_null (left_of current) then new_CountNode
                    else left_of current in
        set_left current (place_letter n' (Z.shiftr binary 1) ch next)
  end.

(** The body of the loop for a line that is not empty: [ch = line[0]],
    [s_binary = line.substr(1)]; both maps are assigned, then [stoi] runs. *)
Definition table_record (t : HuffmanTree) (lroot : CountNodePtr)
    (ch : ascii) (s_binary : text) : outcome (HuffmanTree * CountNodePtr) :=
  let t := {| root := root t; nodeHeap := nodeHeap t;
              codeMap := <[ch := s_binary]> (codeMap t);
              reverseCodeMap := <[s_binary := ch]> (reverseCodeMap t) |} in
  match stoi s_binary with
  | inl e => Thrown e (t, lroot)
  | inr binary =>
      Returned (t, place_letter (length s_binary - 1) binary ch lroot)
  end.

(** [while (getline(input, line))], at most [fuel] rounds; every round
    consumes input, so [S (length input)] rounds are enough. *)
Fixpoint table_loop (fuel : nat) (r : reconstruction) : outcome reconstruction :=
  match fuel with
  | O => OutOfFuel
  | S fuel' =>
      match getline (input_rest r) with
      | None => Returned r
      | Some ([], rest) =>
          Returned {| members := members r; local_root := local_root r;
                      input_rest := rest |}
      | Some (ch :: s_binary, rest) =>
          match table_record (members r) (local_root r) ch s_binary with
          | Returned (t, lroot) =>
              table_loop fuel'
                {| members := t; local_root := lroot; input_rest := rest |}
          | Thrown e (t, lroot) =>
              Thrown e {| members := t; local_root := lroot; input_rest := rest |}
          | OutOfFuel => OutOfFuel
          end
      end
  end.

Definition reconstructTree (t : HuffmanTree) (input : text) : outcome reconstruction :=
  table_loop (S (length input))
    {| members := {| root := root t; nodeHeap := nodeHeap t;
                     codeMap := ∅; reverseCodeMap := ∅ |};
       local_root := new_CountNode;
       input_rest := input |}.

(** *** [decode] *)

(** [while (input >> ch)]: the extraction skips white space, so a space
    character never reaches the body. *)
Fixpoint decode_loop (input : text) (binary : text)
    (reverseCodeMap : gmap text ascii) (output : ofstream) : ofstream :=
  match input with
  | [] => output
  | ch :: input' =>
      if isspace ch then decode_loop input' binary reverseCodeMap output
      else
        let binary := binary ++ [ch] in
        match reverseCodeMap !! binary with
        | Some x => decode_loop input' [] reverseCodeMap (put output [x])
        | None => decode_loop input' binary reverseCodeMap output
        end
  end.

Definition decode (t : HuffmanTree) (file : text) : outcome (HuffmanTree * ofstream) :=
  let output := ofstream_open in
  match reconstructTree t file with
  | Returned r =>
      Returned (members r,
                decode_loop (input_rest r) [] (reverseCodeMap (members r)) output)
  | Thrown e r => Thrown e (members r, output)
  | OutOfFuel => OutOfFuel
  end.

End Program.

Arguments HuffmanTree {PQ}.
Arguments reconstruction {PQ}.

(** text literals *)
Definition txt (s : string) : text := String.list_ascii_of_string s.

(** ** Notions used in the statements *)

Definition outcome_map {A B} (f : A → B) (o : outcome A) : outcome B :=
  match o with
  | Returned a => Returned (f a)
  | Thrown e a => Thrown e (f a)
  | OutOfFuel => OutOfFuel
  end.

(** what a run of [decode] leaves in the output file *)
Definition decoded {A} (o : outcome (A * ofstream)) : outcome text :=
  outcome_map (λ x, written x.2) o.

(** The node a code leads to when it is read as a path from [p]: ['0']
    is the left child, ['1'] the right child, as in [traverseForCodeMap]. *)
Fixpoint node_at (p : CountNodePtr) (code : text) : CountNodePtr :=
  match code with
  | [] => p
  | c :: code' =>
      if decide (c = char0) then node_at (left_of p) code'
      else if decide (c = char1) then node_at (right_of p) code'
      else nullptr
  end.

Definition letter_of (p : CountNodePtr) : option ascii :=
  match p with
  | HuffmanTreeNode ch _ _ _ => Some ch
  | _ => None
  end.

(** the letter nodes [traverseForCodeMap] reaches from [p], each with the
    path it records for it, in the order of the visit *)
Fixpoint letter_paths (p : CountNodePtr) (prefixBits : text) : list (ascii * text) :=
  match p with
  | nullptr => []
  | CountNode _ l r =>
      letter_paths l (prefixBits ++ [char0]) ++ letter_paths r (prefixBits ++ [char1])
  | HuffmanTreeNode letter _ _ _ => [(letter, prefixBits)]
  end.

(** how often a character occurs in the input *)
Fixpoint frequency (a : ascii) (input : text) : Z :=
  match input with
  | [] => 0
  | c :: rest => ((if decide (c = a) then 1 else 0) + frequency a rest)%Z
  end.

Definition sumZ (l : list Z) : Z := foldr Z.add 0%Z l.

(** the sum of the counts of a map of counts, and of a list of nodes *)
Definition sum_values (m : gmap ascii Z) : Z := sumZ ((map_to_list m).*2).
Definition total_count (F : list CountNodePtr) : Z := sumZ (count <$> F).

(** A tree as [buildTree] grows them from two letters on: a letter node
    has no children and a count of at least 1; a plain node has both
    children and carries the sum of their counts. *)
Fixpoint huffman_shaped (p : CountNodePtr) : Prop :=
  match p with
  | nullptr => False
  | CountNode c l r =>
      huffman_shaped l ∧ huffman_shaped r ∧ c = (count l + count r)%Z
  | HuffmanTreeNode _ c l r => l = nullptr ∧ r = nullptr ∧ (1 ≤ c)%Z
  end.

(** the letter nodes of a tree with their counts *)
Fixpoint leaves (p : CountNodePtr) : list (ascii * Z) :=
  match p with
  | nullptr => []
  | CountNode _ l r => leaves l ++ leaves r
  | HuffmanTreeNode ch c _ _ => [(ch, c)]
  end.

(** the plain nodes of a tree, each as the pair of the counts of its
    children: the two counts [buildTree] took off the heap to make it *)
Fixpoint merges (p : CountNodePtr) : list (Z * Z) :=
  match p with
  | CountNode _ l r => (count l, count r) :: merges l ++ merges r
  | _ => []
  end.

(** the same, with the depth of every plain node *)
Fixpoint merges_at (d : nat) (p : CountNodePtr) : list (nat * (Z * Z)) :=
  match p with
  | CountNode _ l r =>
      (d, (count l, count r)) :: merges_at (S d) l ++ merges_at (S d) r
  | _ => []
  end.

(** [a] was taken off the heap before [b]: its counts are not above those
    of [b] *)
Definition before (a b : Z * Z) : Prop :=
  (a.1 ≤ b.1 ∧ a.1 ≤ b.2 ∧ a.2 ≤ b.1 ∧ a.2 ≤ b.2)%Z.
Definition ordered (a b : Z * Z) : Prop := before a b ∨ before b a.

(** What holds of the heap of [buildTree] all along, for an input of [N]
    characters with the counts [cc]. *)
Record forest_inv (N : Z) (cc : gmap ascii Z) (F : list CountNodePtr) : Prop := {
  fi_shape : Forall huffman_shaped F;
  fi_total : total_count F = N;
  fi_leaves : ∀ T ch c, T ∈ F → (ch, c) ∈ leaves T → cc !! ch = Some c;
  fi_below : ∀ T a, T ∈ F → a ∈ F ≫= merges → (a.1 ≤ count T ∧ a.2 ≤ count T)%Z;
  fi_ordered : ForallOrdPairs ordered (F ≫= merges)
}.

(** every node of the tree has the count 0 *)
Fixpoint zero_counts (p : CountNodePtr) : Prop :=
  match p with
  | nullptr => True
  | CountNode c l r | HuffmanTreeNode _ c l r =>
      c = 0%Z ∧ zero_counts l ∧ zero_counts r
  end.

(** the tree [reconstructTree] has built in its local [root] when it
    returns or throws *)
Definition reconstructed `{PQ : PriorityQueue} (o : outcome reconstruction)
    : option CountNodePtr :=
  match o with
  | Returned r | Thrown _ r => Some (local_root r)
  | OutOfFuel => None
  end.

(** a plain [CountNode], as opposed to a letter node *)
Definition is_plain (p : CountNodePtr) : Prop :=
  match p with CountNode _ _ _ => True | _ => False end.

Definition is_bit (b : ascii) : Prop := b = char0 ∨ b = char1.

(** A code table that [decode] can invert for the input: every character
    of the input and no other has a code, the codes are not empty and
    made of ['0'] and ['1'], and no code is a prefix of the code of another
    character. *)
Record code_table_for (input : text) (cm : gmap ascii text) : Prop := {
  ct_total : ∀ a, a ∈ input → is_Some (cm !! a);
  ct_letters : ∀ a c, cm !! a = Some c → a ∈ input;
  ct_bits : ∀ a c, cm !! a = Some c → c ≠ [] ∧ Forall is_bit c;
  ct_prefix : ∀ a1 a2 c1 c2,
    cm !! a1 = Some c1 → cm !! a2 = Some c2 → c1 `prefix_of` c2 → a1 = a2
}.

(** the table line of an entry, and the code [encode] writes for a
    character *)
Definition line_of (p : ascii * text) : text := p.1 :: p.2.
Definition code_of (cm : gmap ascii text) (ch : ascii) : text :=
  default [] (cm !! ch).

(** the reverse map after the table entries [items] have been read *)
Definition enter_reverse (rev : gmap text ascii) (items : list (ascii * text))
    : gmap text ascii :=
  fold_left (λ m p, <[p.2 := p.1]> m) items rev.

(** A table line that holds a record: not empty, without a newline. *)
Definition record_line (l : text) : Prop := l ≠ [] ∧ newline ∉ l.

(** the text of a table: every line followed by a newline *)
Definition table_text (lines : list text) : text :=
  concat ((λ l, l ++ [newline]) <$> lines).

Definition not_space (c : ascii) : Prop := isspace c = false.
#[export] Instance not_space_dec c : Decision (not_space c).
Proof. unfold not_space. apply _. Defined.

(** The decoder without the tree: the table is read as literal
    (letter, code) pairs into the reverse map, [stoi] only decides whether
    the run goes on, and the payload is matched against the reverse map. *)
Fixpoint pairs_loop (fuel : nat) (rev : gmap text ascii) (input : text)
    : outcome (gmap text ascii * text) :=
  match fuel with
  | O => OutOfFuel
  | S fuel' =>
      match getline input with
      | None => Returned (rev, input)
      | Some ([], rest) => Returned (rev, rest)
      | Some (ch :: s_binary, rest) =>
          let rev := <[s_binary := ch]> rev in
          match stoi s_binary with
          | inl e => Thrown e (rev, rest)
          | inr _ => pairs_loop fuel' rev rest
          end
      end
  end.

Definition decode_text (file : text) : outcome text :=
  match pairs_loop (S (length file)) ∅ file with
  | Returned (rev, payload) =>
      Returned (written (decode_loop payload [] rev ofstream_open))
  | Thrown e _ => Thrown e []
  | OutOfFuel => OutOfFuel
  end.

(** the records of the lines of a table, one after the other *)
Fixpoint run_records `{PQ : PriorityQueue} (lines : list text)
    (t : HuffmanTree) (lroot : CountNodePtr) : outcome (HuffmanTree * CountNodePtr) :=
  match lines with
  | (ch :: s_binary) :: lines' =>
      match table_record t lroot ch s_binary with
      | Returned (t', lroot') => run_records lines' t' lroot'
      | o => o
      end
  | _ => Returned (t, lroot)
  end.

(** the code of every record of the table is one [stoi] converts *)
Definition codes_convert (lines : list text) : Prop :=
  Forall (λ l, ∃ v, stoi (drop 1 l) = inr v) lines.

(** the map after the entries [l] have been assigned, one after the other *)
Definition enter_codes (codeMap : gmap ascii text) (l : list (ascii * text))
    : gmap ascii text :=
  fold_left (λ m kv, <[kv.1 := kv.2]> m) l codeMap.

Definition positive_counts (m : gmap ascii Z) : Prop :=
  ∀ k v, m !! k = Some v → (1 ≤ v)%Z.

(** the letter node [countCharFrequencies] makes of an entry *)
Definition leaf_of (e : ascii * Z) : CountNodePtr := new_HuffmanTreeNode e.1 e.2.

Definition heap_inv `{PQ : PriorityQueue} (N : Z) (cc : gmap ascii Z) (h : pq) : Prop :=
  forest_inv N cc (pq_elems h).

(** An input of twelve letters, the i-th of them 2^i times (4095
    characters): the counts are all different and every sum of the lesser
    ones is below the next, so the tree does not depend on how the heap
    chooses among equal counts. *)
Definition skewed_input : text :=
  mjoin (imap (λ i c, replicate (2 ^ i) c) (txt "abcdefghijkl")).

(** the decimal number written with [n] digits 1 *)
Fixpoint repunit (n : nat) : Z :=
  match n with
  | O => 0
  | S n' => 10 * repunit n' + 1
  end%Z.


(** ** File names and the files of [encode] and [decode]

    The first lines of [encode] and [decode]: the name of the output file
    is the name of the input file up to its last ['.'] (one at index 0
    does not count: the search starts at index 1), followed by
    [_encoded.txt] or [_decoded.txt]. *)

(** [s.find(c, pos)]; [None] is [npos] *)
Definition string_find (s : text) (c : ascii) (pos : nat) : option nat :=
  (λ r, pos + r.1) <$> list_find (λ x, x = c) (drop pos s).

(** [while (fileName.find('.', index+1) != -1) index = fileName.find('.', index+1);]
    at most [fuel] rounds; the index grows in every round, so
    [length fileName] rounds are enough (lemma [last_dot_end]) *)
Fixpoint last_dot_loop (fuel : nat) (fileName : text) (index : nat) : nat :=
  match fuel with
  | O => index
  | S fuel' =>
      match string_find fileName "."%char (index + 1) with
      | Some i => last_dot_loop fuel' fileName i
      | None => index
      end
  end.

Definition last_dot (fileName : text) : nat :=
  last_dot_loop (length fileName) fileName 0.

(** [fileName.substr(0, index) + suffix] *)
Definition output_name (fileName suffix : text) : text :=
  take (last_dot fileName) fileName ++ suffix.

Definition encoded_suffix : text := txt "_encoded.txt".
Definition decoded_suffix : text := txt "_decoded.txt".

(** The files, by name. An [ifstream] on a name that is not there reads
    nothing; an [ofstream] creates its file, or empties it, when it is
    constructed. Opening for writing is taken to succeed. *)
Abbreviation files := (gmap text text).

Definition read_file (fs : files) (fileName : text) : text :=
  default [] (fs !! fileName).

(** [encode(fileName)] with its files: the output file is created before
    the input is read, and holds what has been written at the end. *)
Definition encode_file `{UMO : UnorderedMapOrder} `{PQ : PriorityQueue}
    (t : HuffmanTree) (fs : files) (fileName : text) : HuffmanTree * files :=
  let outName := output_name fileName encoded_suffix in
  let fs := <[outName := []]> fs in
  let '(t, output) := encode t (read_file fs fileName) in
  (t, <[outName := written output]> fs).

(** [decode(fileName)] with its files; when the run ends in an exception
    the output file is there: it has been created, and the exceptions
    come from reading the table, before anything is written. *)
Definition decode_file `{PQ : PriorityQueue}
    (t : HuffmanTree) (fs : files) (fileName : text) : outcome (HuffmanTree * files) :=
  let outName := output_name fileName decoded_suffix in
  let fs := <[outName := []]> fs in
  outcome_map (λ r, (r.1, <[outName := written r.2]> fs))
    (decode t (read_file fs fileName)).

(** ** The input loops of [main]

    [main] reads from [cin] twice: lines, for the name of the file, and
    numbers, for the option. [lines] are the lines [getline] delivers one
    after the other; [reads] are the outcomes of the successive
    extractions [cin >> option]: whether [cin.fail()] holds and the value
    [option] has afterwards. What [main] prints is kept as the list of
    its messages. A loop that is still asking when what it is given runs
    out gives [None]: the program would go on asking.

    What [main] does after the two loops is not modelled. Its object
    [HuffmanTree tree;] has a [root] without a value - the struct
    declares no constructor and the member has no initialiser - and
    [buildTree], [reconstructTree] and the destructor test and delete
    [root]: the behaviour of [main] from the [switch] on is undefined. *)
Inductive printed := EnterFileName | ErrorOpening | Menu | InvalidInput.

(** the first [do ... while]: until a file of the name given opens *)
Fixpoint file_name_loop (fs : files) (lines : list text) (cout : list printed)
    : option (text * list printed) :=
  match lines with
  | [] => None
  | fileName :: lines' =>
      let cout := cout ++ [EnterFileName] in
      if decide (is_Some (fs !! fileName)) then Some (fileName, cout)
      else file_name_loop fs lines' (cout ++ [ErrorOpening])
  end.

Definition option_rejected (failed : bool) (option : N) : bool :=
  failed || negb (option =? 1)%N || negb (option =? 2)%N.

(** the second [do ... while]: until the option is 1 or 2 *)
Fixpoint option_loop (reads : list (bool * N)) (cout : list printed)
    : option (N * list printed) :=
  match reads with
  | [] => None
  | (failed, option) :: reads' =>
      let cout := cout ++ [Menu] in
      let cout := if option_rejected failed option then cout ++ [InvalidInput]
                  else cout in
      if ((option =? 0) || (2 <? option))%N then option_loop reads' cout
      else Some (option, cout)
  end.

(** [main] up to its [switch]: the name and the option it has when it
    gets there, and what it has printed. *)
Definition main_input (fs : files) (lines : list text) (reads : list (bool * N))
    : option (text * N * list printed) :=
  '(fileName, cout) ← file_name_loop fs lines [];
  '(option, cout) ← option_loop reads cout;
  Some (fileName, option, cout).

(** ** One implementation of the containers

    Used to run the program on concrete inputs: the map is visited in the
    order of [map_to_list]; the queue keeps its elements in a list, [push]
    appends and [top] is the first element of least count. *)

#[export] Instance map_to_list_order : UnorderedMapOrder :=
  {| um_items := λ V m, map_to_list m; um_items_perm := λ V m, reflexivity _ |}.

Fixpoint extract_min (l : list CountNodePtr)
    : option (CountNodePtr * list CountNodePtr) :=
  match l with
  | [] => None
  | x :: l' =>
      match extract_min l' with
      | None => Some (x, [])
      | Some (m, rest) =>
          if NodeComparison x m then Some (m, x :: rest) else Some (x, l')
      end
  end.

Definition list_top (l : list CountNodePtr) : CountNodePtr :=
  match extract_min l with Some (m, _) => m | None => nullptr end.
Definition list_pop (l : list CountNodePtr) : list CountNodePtr :=
  match extract_min l with Some (_, rest) => rest | None => [] end.

Lemma extract_min_spec l m rest :
  extract_min l = Some (m, rest) →
  l ≡ₚ m :: rest ∧ ∀ y, y ∈ l → NodeComparison m y = false.
Proof.
  revert m rest. induction l as [|x l IH]; intros m rest; simpl; [done|].
  destruct (extract_min l) as [[m' rest']|] eqn:E.
  - destruct (IH m' rest' eq_refl) as [Hp Hmin].
    destruct (NodeComparison x m') eqn:Hc; intros [= <- <-].
    + split.
      * rewrite Hp. apply Permutation_swap.
      * intros y [->|Hy]%elem_of_cons; [|by apply Hmin].
        unfold NodeComparison in *. apply Z.ltb_lt in Hc. apply Z.ltb_ge. lia.
    + split; [done|].
      intros y [->|Hy]%elem_of_cons.
      * unfold NodeComparison. apply Z.ltb_ge. lia.
      * specialize (Hmin y Hy). unfold NodeComparison in *.
        apply Z.ltb_ge in Hc, Hmin. apply Z.ltb_ge. lia.
  - intros [= <- <-]. destruct l; [|simpl in E; destruct (extract_min l) as [[??]|];
      [destruct (NodeComparison _ _)|]; done].
    split; [done|]. intros y ->%list_elem_of_singleton.
    unfold NodeComparison. apply Z.ltb_ge. lia.
Qed.

Lemma extract_min_cons x l : extract_min (x :: l) ≠ None.
Proof.
  simpl. destruct (extract_min l) as [[??]|]; [|done].
  by destruct (NodeComparison _ _).
Qed.

Lemma list_queue_push x (q : list CountNodePtr) : q ++ [x] ≡ₚ x :: q.
Proof. by rewrite Permutation_app_comm. Qed.

Lemma list_queue_top_pop (q : list CountNodePtr) :
  q ≠ [] → q ≡ₚ list_top q :: list_pop q.
Proof.
  intros Hq. unfold list_top, list_pop.
  destruct (extract_min q) as [[m rest]|] eqn:E.
  - by apply extract_min_spec in E as [? _].
  - destruct q; [done|]. by apply extract_min_cons in E.
Qed.

Lemma list_queue_top_first (q : list CountNodePtr) y :
  y ∈ q → NodeComparison (list_top q) y = false.
Proof.
  intros Hy. unfold list_top.
  destruct (extract_min q) as [[m rest]|] eqn:E.
  - apply extract_min_spec in E as [_ Hm]. by apply Hm.
  - destruct q; [by apply elem_of_nil in Hy|]. by apply extract_min_cons in E.
Qed.

#[export] Instance list_queue : PriorityQueue :=
  {| pq := list CountNodePtr;
     pq_empty := [];
     pq_push := λ x q, q ++ [x];
     pq_top := list_top;
     pq_pop := list_pop;
     pq_elems := λ q, q;
     pq_elems_empty := eq_refl;
     pq_elems_push := list_queue_push;
     pq_top_pop := list_queue_top_pop;
     pq_top_first := list_queue_top_first |}.

(** * Properties *)

Section Properties.
Context `{UMO : UnorderedMapOrder} `{PQ : PriorityQueue}.

Implicit Types (t : HuffmanTree) (h : pq) (p q : CountNodePtr).

(** ** The containers *)

Lemma um_items_empty {V} : um_items (∅ : gmap ascii V) = [].
Proof.
  apply Permutation_nil_r. rewrite um_items_perm. by rewrite map_to_list_empty.
Qed.

Lemma um_items_singleton {V} (k : ascii) (v : V) :
  um_items ({[k := v]} : gmap ascii V) = [(k, v)].
Proof.
  apply Permutation_singleton_r. rewrite um_items_perm.
  by rewrite map_to_list_singleton.
Qed.

Lemma pq_is_empty_true h : pq_is_empty h = true ↔ pq_elems h = [].
Proof. unfold pq_is_empty. by destruct (pq_elems h). Qed.

Lemma pq_is_empty_false h : pq_is_empty h = false ↔ pq_elems h ≠ [].
Proof. unfold pq_is_empty. by destruct (pq_elems h). Qed.

Lemma pq_size_push x h : pq_size (pq_push x h) = S (pq_size h).
Proof. unfold pq_size. by rewrite pq_elems_push. Qed.

Lemma pq_size_pop h : pq_elems h ≠ [] → pq_size h = S (pq_size (pq_pop h)).
Proof. intros Hne. unfold pq_size. by rewrite (pq_top_pop h Hne) at 1. Qed.

Lemma pq_top_in h : pq_elems h ≠ [] → pq_top h ∈ pq_elems h.
Proof. intros Hne. rewrite (pq_top_pop h Hne). apply elem_of_cons. by left. Qed.

Lemma pq_top_least h y : y ∈ pq_elems h → (count (pq_top h) ≤ count y)%Z.
Proof.
  intros Hy. apply pq_top_first in Hy. unfold NodeComparison in Hy.
  by apply Z.ltb_ge in Hy.
Qed.

(** ** Empty input *)

Lemma countCharFrequencies_empty t : countCharFrequencies t [] = t.
Proof. unfold countCharFrequencies. simpl. by rewrite decide_True. Qed.

Lemma buildTree_empty_heap t : pq_is_empty (nodeHeap t) = true → buildTree t = t.
Proof. intros He. unfold buildTree. by rewrite He. Qed.

(** ** Reading the table *)

Lemma read_line_length_le input : length (read_line input).2 ≤ length input.
Proof.
  induction input as [|c rest IH]; simpl; [done|].
  case_decide; simpl; [lia|].
  destruct (read_line rest) as [line rest']. simpl in *. lia.
Qed.

Lemma getline_length input line rest :
  getline input = Some (line, rest) → length rest < length input.
Proof.
  destruct input as [|c input]; [done|]. intros [= Hr].
  simpl in Hr. case_decide.
  - injection Hr as <- <-. simpl. lia.
  - pose proof (read_line_length_le input) as Hle.
    destruct (read_line input) as [line' rest']. injection Hr as <- <-.
    simpl in *. lia.
Qed.

Lemma read_line_app l tail :
  newline ∉ l → (tail = [] ∨ ∃ post, tail = newline :: post) →
  read_line (l ++ tail) = (l, drop 1 tail).
Proof.
  intros Hl Htail. induction l as [|c l IH]; simpl.
  - destruct Htail as [->|[post ->]]; [done|]. reflexivity.
  - rewrite decide_False; [|intros ->; apply Hl; left].
    rewrite IH; [done|]. intros Hin. apply Hl. by right.
Qed.

Lemma getline_record l tail :
  record_line l → (tail = [] ∨ ∃ post, tail = newline :: post) →
  getline (l ++ tail) = Some (l, drop 1 tail).
Proof.
  intros [Hne Hnl] Htail. unfold getline.
  destruct l as [|c l]; [done|]. simpl app.
  change (c :: l ++ tail) with ((c :: l) ++ tail). by rewrite read_line_app.
Qed.

Lemma table_record_fuel t lroot ch s : table_record t lroot ch s ≠ OutOfFuel.
Proof. unfold table_record. by destruct (stoi s). Qed.

(** enough fuel: the loop ends by itself *)
Lemma table_loop_fuel fuel (r : reconstruction) :
  length (input_rest r) < fuel → table_loop fuel r ≠ OutOfFuel.
Proof.
  revert r. induction fuel as [|fuel IH]; intros r Hlen; [lia|]. simpl.
  destruct (getline (input_rest r)) as [[line rest]|] eqn:Hg; [|done].
  apply getline_length in Hg.
  destruct line as [|ch s]; [done|].
  pose proof (table_record_fuel (members r) (local_root r) ch s) as Hrec.
  destruct (table_record _ _ _ _) as [[t' lr']|e [t' lr']|]; [|done..].
  apply IH. simpl. lia.
Qed.

Lemma table_loop_enough fuel1 fuel2 (r : reconstruction) :
  length (input_rest r) < fuel1 → length (input_rest r) < fuel2 →
  table_loop fuel1 r = table_loop fuel2 r.
Proof.
  revert fuel2 r. induction fuel1 as [|fuel1 IH]; intros fuel2 r H1 H2; [lia|].
  destruct fuel2 as [|fuel2]; [lia|]. simpl.
  destruct (getline (input_rest r)) as [[line rest]|] eqn:Hg; [|done].
  apply getline_length in Hg.
  destruct line as [|ch s]; [done|].
  destruct (table_record _ _ _ _) as [[t' lr']|e [t' lr']|]; [|done..].
  apply IH; simpl; lia.
Qed.

Lemma reconstructTree_fuel t input : reconstructTree t input ≠ OutOfFuel.
Proof. unfold reconstructTree. apply table_loop_fuel. simpl. lia. Qed.

Lemma decode_fuel t file : decode t file ≠ OutOfFuel.
Proof.
  unfold decode. pose proof (reconstructTree_fuel t file).
  by destruct (reconstructTree t file).
Qed.

(** ** The decoder reads the maps, not the tree *)

Lemma table_loop_pairs fuel (r : reconstruction) :
  outcome_map (λ r', (reverseCodeMap (members r'), input_rest r'))
    (table_loop fuel r)
  = pairs_loop fuel (reverseCodeMap (members r)) (input_rest r).
Proof.
  revert r. induction fuel as [|fuel IH]; intros r; [done|]. simpl.
  destruct (getline (input_rest r)) as [[[|ch s] rest]|]; [done| |done].
  unfold table_record. destruct (stoi s) as [e|binary]; [done|].
  by rewrite IH.
Qed.

(** C9: what [decode] writes is what the tree-free decoder [decode_text]
    computes from the text of the file alone: the literal (letter, code)
    pairs of the table lines and the payload characters. Neither the tree
    object the run starts from, nor the tree [reconstructTree] builds, nor
    the containers' implementation has a part in it, so two runs on the
    same text write the same output and end the same way. *)
Theorem decode_reads_text_only t file :
  decoded (decode t file) = decode_text file.
Proof.
  unfold decoded, decode, decode_text, reconstructTree.
  pose proof (table_loop_pairs (S (length file))
    {| members := {| root := root t; nodeHeap := nodeHeap t;
                     codeMap := ∅; reverseCodeMap := ∅ |};
       local_root := new_CountNode; input_rest := file |}) as Hp.
  cbn [members reverseCodeMap input_rest] in Hp. rewrite <- Hp.
  by destruct (table_loop _ _) as [r|e r|].
Qed.

Lemma table_loop_lines lines : ∀ (r : reconstruction) tail fuel,
  Forall record_line lines →
  input_rest r = table_text lines ++ tail →
  length (input_rest r) < fuel →
  match run_records lines (members r) (local_root r) with
  | Returned (t', lroot') =>
      table_loop fuel r =
      table_loop fuel {| members := t'; local_root := lroot'; input_rest := tail |}
  | Thrown e (t', lroot') =>
      ∃ rest, table_loop fuel r =
              Thrown e {| members := t'; local_root := lroot'; input_rest := rest |}
  | OutOfFuel => False
  end.
Proof.
  induction lines as [|line lines IH]; intros r tail fuel Hlines Hin Hfuel.
  - simpl in *. destruct r; simpl in *; by subst.
  - apply Forall_cons in Hlines as [Hline Hlines].
    destruct fuel as [|fuel]; [lia|].
    assert (getline (input_rest r) = Some (line, table_text lines ++ tail)) as Hg.
    { rewrite Hin. unfold table_text. simpl. rewrite <- !app_assoc. simpl.
      rewrite getline_record; [done..|]. right. eauto. }
    pose proof (getline_length _ _ _ Hg) as Hlen.
    destruct line as [|ch s]; [by destruct Hline|].
    assert (table_loop (S fuel) r =
            match table_record (members r) (local_root r) ch s with
            | Returned (t, lroot) =>
                table_loop fuel {| members := t; local_root := lroot;
                                   input_rest := table_text lines ++ tail |}
            | Thrown e (t, lroot) =>
                Thrown e {| members := t; local_root := lroot;
                            input_rest := table_text lines ++ tail |}
            | OutOfFuel => OutOfFuel
            end) as Hstep by (simpl; by rewrite Hg).
    cbn [run_records].
    pose proof (table_record_fuel (members r) (local_root r) ch s) as Hrec.
    destruct (table_record _ _ _ _) as [[t' lr']|e [t' lr']|]; [|eauto|done].
    specialize (IH {| members := t'; local_root := lr';
                      input_rest := table_text lines ++ tail |} tail fuel
                   Hlines eq_refl).
    cbn [members local_root input_rest] in IH.
    assert (length (table_text lines ++ tail) < fuel) as Hfuel' by lia.
    specialize (IH Hfuel').
    assert (length tail < fuel) as Htail by (rewrite length_app in Hfuel'; lia).
    destruct (run_records lines t' lr') as [[t2 lr2]|e [t2 lr2]|]; [| |done].
    2:{ destruct IH as [rest IH]. exists rest. by rewrite Hstep. }
    rewrite Hstep, IH. apply table_loop_enough; simpl; lia.
Qed.

(** after the records, the blank line ends the table *)
Lemma table_loop_blank fuel t lroot payload :
  table_loop (S fuel)
    {| members := t; local_root := lroot; input_rest := newline :: payload |}
  = Returned {| members := t; local_root := lroot; input_rest := payload |}.
Proof. done. Qed.

(** ** White space in the payload *)

Lemma decode_loop_filter input : ∀ binary (rev : gmap text ascii) out,
  decode_loop input binary rev out
  = decode_loop (filter not_space input) binary rev out.
Proof.
  induction input as [|ch input IH]; intros binary rev out; [done|].
  rewrite filter_cons. simpl.
  destruct (decide (not_space ch)) as [Hsp|Hsp]; unfold not_space in Hsp.
  - simpl. rewrite Hsp. destruct (rev !! (binary ++ [ch])); apply IH.
  - apply not_false_is_true in Hsp. rewrite Hsp. apply IH.
Qed.

(** C10: the payload is read with [input >> ch], which skips white space:
    two files with the same table whose payloads differ only in white
    space (inside the payload or after it, a final newline included) are
    decoded alike: same output, same maps. *)
Theorem decode_skips_whitespace t lines payload1 payload2 :
  Forall record_line lines →
  filter not_space payload1 = filter not_space payload2 →
  decode t (table_text lines ++ newline :: payload1)
  = decode t (table_text lines ++ newline :: payload2).
Proof.
  intros Hlines Hf. unfold decode, reconstructTree.
  set (t0 := {| root := root t; nodeHeap := nodeHeap t;
                codeMap := ∅; reverseCodeMap := ∅ |}).
  pose proof (table_loop_lines lines
    {| members := t0; local_root := new_CountNode;
       input_rest := table_text lines ++ newline :: payload1 |}
    (newline :: payload1) _ Hlines eq_refl (Nat.lt_succ_diag_r _)) as H1.
  pose proof (table_loop_lines lines
    {| members := t0; local_root := new_CountNode;
       input_rest := table_text lines ++ newline :: payload2 |}
    (newline :: payload2) _ Hlines eq_refl (Nat.lt_succ_diag_r _)) as H2.
  cbn [members local_root input_rest] in H1, H2.
  destruct (run_records lines t0 new_CountNode) as [[t' lr']|e [t' lr']|];
    [| |done].
  - rewrite H1, H2, !table_loop_blank.
    cbn [members input_rest].
    by rewrite (decode_loop_filter payload1), (decode_loop_filter payload2), Hf.
  - destruct H1 as [rest1 ->], H2 as [rest2 ->]. done.
Qed.

(** ** A record without a code *)

Lemma stoi_empty : stoi [] = inl invalid_argument.
Proof. done. Qed.

Lemma run_records_convert lines : ∀ t lroot,
  Forall record_line lines → codes_convert lines →
  ∃ t' lroot', run_records lines t lroot = Returned (t', lroot').
Proof.
  induction lines as [|line lines IH]; intros t lroot Hl Hc; [by eexists _, _|].
  apply Forall_cons in Hl as [[Hne _] Hl]. apply Forall_cons in Hc as [[v Hv] Hc].
  destruct line as [|ch s]; [done|]. change (drop 1 (ch :: s)) with s in Hv.
  simpl. unfold table_record. rewrite Hv. by apply IH.
Qed.

(** ** The code table of a tree *)

Lemma traverseForCodeMap_paths p : ∀ codeMap prefixBits,
  traverseForCodeMap p codeMap prefixBits
  = enter_codes codeMap (letter_paths p prefixBits).
Proof.
  induction p as [|c l IHl r IHr|ch c l _ r _]; intros cm pre; simpl; [done| |done].
  unfold enter_codes. by rewrite fold_left_app, IHl, IHr.
Qed.

Lemma enter_codes_lookup l : ∀ (cm : gmap ascii text) a c,
  enter_codes cm l !! a = Some c → cm !! a = Some c ∨ (a, c) ∈ l.
Proof.
  induction l as [|[k v] l IH]; intros cm a c Hl; simpl in *; [by left|].
  apply IH in Hl as [Hl|Hl]; [|right; by right].
  simpl in Hl. destruct (decide (k = a)) as [->|Hne].
  - rewrite lookup_insert_eq in Hl. injection Hl as ->. right. by left.
  - rewrite lookup_insert_ne in Hl by done. by left.
Qed.

Lemma letter_paths_prefix p : ∀ pre a c,
  (a, c) ∈ letter_paths p pre → pre `prefix_of` c.
Proof.
  induction p as [|n l IHl r IHr|ch n l _ r _]; intros pre a c Hin; simpl in Hin.
  - by apply elem_of_nil in Hin.
  - apply elem_of_app in Hin as [Hin|Hin];
      [apply IHl in Hin|apply IHr in Hin];
      (etrans; [|exact Hin]); by apply prefix_app_r.
  - apply list_elem_of_singleton in Hin. by injection Hin as -> ->.
Qed.

(** the two sides of a node cannot lead to comparable paths *)
Lemma sides_incomparable (pre c1 c2 : text) :
  pre ++ [char0] `prefix_of` c1 → pre ++ [char1] `prefix_of` c2 →
  ¬ c1 `prefix_of` c2 ∧ ¬ c2 `prefix_of` c1.
Proof.
  intros H0 H1.
  assert (¬ pre ++ [char0] `prefix_of` c2) as N0.
  { intros H0'. destruct (prefix_weak_total _ _ _ H0' H1) as [Hp|Hp];
      apply prefix_length_eq in Hp; try (rewrite !length_app; simpl; lia);
      by apply app_inv_head in Hp. }
  assert (¬ pre ++ [char1] `prefix_of` c1) as N1.
  { intros H1'. destruct (prefix_weak_total _ _ _ H0 H1') as [Hp|Hp];
      apply prefix_length_eq in Hp; try (rewrite !length_app; simpl; lia);
      by apply app_inv_head in Hp. }
  split; intros Hp; [apply N0|apply N1]; by etrans.
Qed.

Lemma letter_paths_prefix_free p : ∀ pre a1 c1 a2 c2,
  (a1, c1) ∈ letter_paths p pre → (a2, c2) ∈ letter_paths p pre →
  c1 `prefix_of` c2 → c1 = c2.
Proof.
  induction p as [|n l IHl r IHr|ch n l _ r _]; intros pre a1 c1 a2 c2 H1 H2 Hp;
    simpl in H1, H2.
  - by apply elem_of_nil in H1.
  - apply elem_of_app in H1 as [H1|H1]; apply elem_of_app in H2 as [H2|H2];
      [by eapply IHl| | |by eapply IHr];
      apply letter_paths_prefix in H1, H2.
    + by destruct (sides_incomparable pre c1 c2).
    + by destruct (sides_incomparable pre c2 c1).
  - apply list_elem_of_singleton in H1, H2. congruence.
Qed.

Lemma buildTree_codeMap t :
  pq_is_empty (nodeHeap t) = false →
  codeMap (buildTree t) = traverseForCodeMap (root (buildTree t)) ∅ [].
Proof.
  intros Hne. unfold buildTree. rewrite Hne.
  by destruct (pq_is_empty (pq_pop (nodeHeap t))).
Qed.

(** C5: the codes [buildTree] records for its tree form a prefix code:
    of two different codes of the table neither is a prefix of the
    other. *)
Theorem prefix_code_invariant t a b c1 c2 :
  pq_is_empty (nodeHeap t) = false →
  codeMap (buildTree t) !! a = Some c1 →
  codeMap (buildTree t) !! b = Some c2 →
  c1 ≠ c2 →
  ¬ c1 `prefix_of` c2 ∧ ¬ c2 `prefix_of` c1.
Proof.
  intros Hne Ha Hb Hdiff. rewrite buildTree_codeMap in Ha, Hb by done.
  rewrite traverseForCodeMap_paths in Ha, Hb.
  apply enter_codes_lookup in Ha as [Ha|Ha]; [by rewrite lookup_empty in Ha|].
  apply enter_codes_lookup in Hb as [Hb|Hb]; [by rewrite lookup_empty in Hb|].
  split; intros Hp; apply Hdiff;
    [|symmetry]; eapply letter_paths_prefix_free; eauto.
Qed.

(** ** Counting *)

Lemma wrap_int_small z : (INT_MIN ≤ z ≤ INT_MAX)%Z → wrap_int z = z.
Proof.
  unfold INT_MIN, INT_MAX, wrap_int. intros Hz.
  rewrite Z.mod_small; lia.
Qed.

Lemma int_add_small a b :
  (INT_MIN ≤ a + b ≤ INT_MAX)%Z → int_add a b = (a + b)%Z.
Proof. apply wrap_int_small. Qed.

#[export] Instance sumZ_perm : Proper ((≡ₚ) ==> (=)) sumZ.
Proof.
  intros l1 l2 Hp. unfold sumZ.
  induction Hp as [|x l1 l2 _ IH|x y l|l1 l2 l3 _ IH1 _ IH2]; simpl; lia.
Qed.

Lemma sumZ_app l1 l2 : sumZ (l1 ++ l2) = (sumZ l1 + sumZ l2)%Z.
Proof. unfold sumZ. induction l1 as [|x l1 IH]; simpl; lia. Qed.

Lemma sum_values_empty : sum_values ∅ = 0%Z.
Proof. unfold sum_values. by rewrite map_to_list_empty. Qed.

Lemma sum_values_insert (m : gmap ascii Z) k v :
  m !! k = None → sum_values (<[k := v]> m) = (v + sum_values m)%Z.
Proof.
  intros Hk. unfold sum_values. by rewrite (map_to_list_insert m k v Hk).
Qed.

Lemma sum_values_delete (m : gmap ascii Z) k v :
  m !! k = Some v → sum_values m = (v + sum_values (delete k m))%Z.
Proof.
  intros Hk. unfold sum_values. by rewrite <- (map_to_list_delete m k v Hk).
Qed.

Lemma sum_values_update (m : gmap ascii Z) k v v' :
  m !! k = Some v → sum_values (<[k := v']> m) = (sum_values m - v + v')%Z.
Proof.
  intros Hk. rewrite <- insert_delete_eq.
  rewrite sum_values_insert by apply lookup_delete_eq.
  rewrite (sum_values_delete m k v Hk). lia.
Qed.

Lemma sum_values_nonneg (m : gmap ascii Z) :
  positive_counts m → (0 ≤ sum_values m)%Z.
Proof.
  induction m as [|k v m Hk IH] using map_ind; intros Hpos.
  - by rewrite sum_values_empty.
  - rewrite sum_values_insert by done.
    assert (1 ≤ v)%Z by (apply (Hpos k); apply lookup_insert_eq).
    assert (0 ≤ sum_values m)%Z; [|lia].
    apply IH. intros k' v' Hk'. apply (Hpos k').
    rewrite lookup_insert_ne; [done|]. intros ->. congruence.
Qed.

Lemma sum_values_bound (m : gmap ascii Z) k v :
  positive_counts m → m !! k = Some v → (v ≤ sum_values m)%Z.
Proof.
  intros Hpos Hk. rewrite (sum_values_delete m k v Hk).
  assert (0 ≤ sum_values (delete k m))%Z; [|lia].
  apply sum_values_nonneg. intros k' v' Hk'.
  apply lookup_delete_Some in Hk' as [_ Hk']. by apply (Hpos k').
Qed.

(** Where the counts cannot leave the range of [int], [count_chars]
    counts: it adds to every entry the frequency of its character. *)
Lemma count_chars_spec (input : text) : ∀ (m : gmap ascii Z),
  positive_counts m →
  (sum_values m + Z.of_nat (length input) ≤ INT_MAX)%Z →
  positive_counts (count_chars input m) ∧
  sum_values (count_chars input m) = (sum_values m + Z.of_nat (length input))%Z ∧
  ∀ a, count_chars input m !! a =
       match m !! a with
       | Some v => Some (v + frequency a input)%Z
       | None => if decide (frequency a input = 0%Z) then None
                 else Some (frequency a input)
       end.
Proof.
  induction input as [|ch input IH]; intros m Hpos Hsum.
  - simpl. split; [done|]. split; [lia|]. intros a.
    destruct (m !! a) as [v|]; [f_equal; lia|done].
  - cbn [count_chars]. rewrite length_cons in Hsum. rewrite length_cons.
    assert (∀ b, 0 ≤ frequency b input)%Z as Hfreq.
    { intros b. clear. induction input as [|c input IH]; simpl; [done|].
      case_decide; lia. }
    destruct (m !! ch) as [n|] eqn:Hch.
    + pose proof (sum_values_bound m ch n Hpos Hch) as Hn.
      pose proof (Hpos ch n Hch) as Hn1.
      rewrite int_add_small by (unfold INT_MIN, INT_MAX in *; lia).
      destruct (IH (<[ch := (n + 1)%Z]> m)) as (Hp' & Hs' & Hl').
      * intros k v. destruct (decide (k = ch)) as [->|Hne].
        -- rewrite lookup_insert_eq. intros [= <-]. lia.
        -- rewrite lookup_insert_ne by done. apply Hpos.
      * rewrite (sum_values_update m ch n) by done. lia.
      * split; [done|]. split.
        { rewrite Hs', (sum_values_update m ch n) by done. lia. }
        intros a. rewrite Hl'. simpl. destruct (decide (ch = a)) as [->|Hne].
        -- rewrite lookup_insert_eq, Hch. f_equal. lia.
        -- rewrite lookup_insert_ne by done. destruct (m !! a); [f_equal; lia|].
           by rewrite Z.add_0_l.
    + destruct (IH (<[ch := 1%Z]> m)) as (Hp' & Hs' & Hl').
      * intros k v. destruct (decide (k = ch)) as [->|Hne].
        -- rewrite lookup_insert_eq. intros [= <-]. lia.
        -- rewrite lookup_insert_ne by done. apply Hpos.
      * rewrite sum_values_insert by done. lia.
      * split; [done|]. split.
        { rewrite Hs', sum_values_insert by done. lia. }
        intros a. rewrite Hl'. simpl. destruct (decide (ch = a)) as [->|Hne].
        -- rewrite lookup_insert_eq, Hch.
           specialize (Hfreq a). rewrite decide_False by lia. done.
        -- rewrite lookup_insert_ne by done. destruct (m !! a); [f_equal; lia|].
           by rewrite Z.add_0_l.
Qed.

(** ** The heap of [buildTree] *)

Lemma ForallOrdPairs_perm {A} (R : A → A → Prop) (l1 l2 : list A) :
  (∀ x y, R x y → R y x) → l1 ≡ₚ l2 →
  ForallOrdPairs R l1 → ForallOrdPairs R l2.
Proof.
  intros Hsym Hp.
  induction Hp as [|x l1 l2 Hp IH|x y l|l1 l2 l3 _ IH1 _ IH2]; intros HF.
  - done.
  - inversion_clear HF as [|?? Hx Hl]. constructor; [|by apply IH].
    apply Forall_forall. intros z Hz. rewrite Forall_forall in Hx.
    apply Hx. apply list_elem_of_In. rewrite Hp. by apply list_elem_of_In.
  - inversion_clear HF as [|?? Hy Hl]. inversion_clear Hl as [|?? Hx Hl'].
    inversion_clear Hy as [|?? Hyx Hy']. constructor; [|by constructor].
    constructor; [by apply Hsym|done].
  - auto.
Qed.

Lemma ordered_sym a b : ordered a b → ordered b a.
Proof. unfold ordered. tauto. Qed.

Lemma huffman_shaped_count p : huffman_shaped p → (1 ≤ count p)%Z.
Proof.
  induction p as [|c l IHl r IHr|ch c l _ r _]; simpl; [done| |tauto].
  intros (Hl & Hr & ->). specialize (IHl Hl). specialize (IHr Hr). lia.
Qed.

Lemma total_count_cons p F : total_count (p :: F) = (count p + total_count F)%Z.
Proof. done. Qed.

Lemma total_count_nonneg F : Forall huffman_shaped F → (0 ≤ total_count F)%Z.
Proof.
  induction 1 as [|p F Hp _ IH]; [done|]. rewrite total_count_cons.
  apply huffman_shaped_count in Hp. lia.
Qed.

Lemma forest_inv_perm N cc F F' :
  F ≡ₚ F' → forest_inv N cc F → forest_inv N cc F'.
Proof.
  intros Hp [Hs Ht Hl Hb Ho]. split.
  - by rewrite <- Hp.
  - unfold total_count. by rewrite <- Hp.
  - intros T ch c HT. apply Hl. by rewrite Hp.
  - intros T a HT Ha. apply Hb; by rewrite Hp.
  - eapply ForallOrdPairs_perm; [apply ordered_sym| |exact Ho]. by rewrite Hp.
Qed.

(** one round: the two least nodes make a new one *)
Lemma forest_inv_merge N cc r l F :
  (N ≤ INT_MAX)%Z →
  forest_inv N cc (r :: l :: F) →
  (∀ T, T ∈ l :: F → count r ≤ count T)%Z →
  (∀ T, T ∈ F → count l ≤ count T)%Z →
  forest_inv N cc (CountNode (int_add (count r) (count l)) l r :: F).
Proof.
  intros HN [Hs Ht Hl Hb Ho] Hr Hlmin.
  apply Forall_cons in Hs as [Hsr Hs]. apply Forall_cons in Hs as [Hsl Hs].
  pose proof (huffman_shaped_count _ Hsr) as Hr1.
  pose proof (huffman_shaped_count _ Hsl) as Hl1.
  pose proof (total_count_nonneg _ Hs) as HF0.
  rewrite !total_count_cons in Ht.
  rewrite int_add_small by (unfold INT_MIN, INT_MAX in *; lia).
  assert (count r ≤ count l)%Z as Hrl by (apply Hr; left).
  assert ((CountNode (count r + count l) l r :: F) ≫= merges
          ≡ₚ (count l, count r) :: (r :: l :: F) ≫= merges) as Hm.
  { rewrite !bind_cons. cbn [merges]. simpl. constructor.
    by rewrite (Permutation_app_comm (merges l)), <- app_assoc. }
  split.
  - constructor; [|done]. simpl. split; [done|]. split; [done|]. lia.
  - rewrite total_count_cons. simpl. lia.
  - intros T ch c [->|HT]%elem_of_cons Hin.
    + simpl in Hin. apply elem_of_app in Hin as [Hin|Hin].
      * apply (Hl l); [right; left|done].
      * apply (Hl r); [left|done].
    + apply (Hl T); [by do 2 right|done].
  - intros T a HT Ha. rewrite Hm in Ha.
    assert (count r ≤ count T ∧ count l ≤ count T)%Z as [HrT HlT].
    { apply elem_of_cons in HT as [->|HT]; [simpl; lia|].
      split; [apply Hr; by right|by apply Hlmin]. }
    apply elem_of_cons in Ha as [->|Ha]; [simpl; lia|].
    destruct (Hb r a) as [Ha1 Ha2]; [left|done|]. lia.
  - eapply ForallOrdPairs_perm; [apply ordered_sym|symmetry; exact Hm|].
    constructor; [|done]. apply Forall_forall. intros a Ha.
    destruct (Hb r a) as [Ha1 Ha2]; [left|done|].
    right. unfold before. simpl. lia.
Qed.

Lemma pq_size_pos h : 0 < pq_size h → pq_elems h ≠ [].
Proof. unfold pq_size. destruct (pq_elems h); simpl; [lia|done]. Qed.

Lemma pq_elems_merge_step h :
  1 < pq_size h →
  pq_elems h ≡ₚ pq_top h :: pq_top (pq_pop h) :: pq_elems (pq_pop (pq_pop h)) ∧
  pq_elems (merge_step h) ≡ₚ
    CountNode (int_add (count (pq_top h)) (count (pq_top (pq_pop h))))
      (pq_top (pq_pop h)) (pq_top h) :: pq_elems (pq_pop (pq_pop h)).
Proof.
  intros Hsize.
  assert (pq_elems h ≠ []) as Hne by (apply pq_size_pos; lia).
  assert (pq_elems (pq_pop h) ≠ []) as Hne'.
  { apply pq_size_pos. rewrite (pq_size_pop h Hne) in Hsize. lia. }
  split.
  - rewrite (pq_top_pop h Hne) at 1. by rewrite (pq_top_pop (pq_pop h) Hne') at 1.
  - unfold merge_step. apply pq_elems_push.
Qed.

Lemma merge_step_inv N cc h :
  (N ≤ INT_MAX)%Z → heap_inv N cc h → 1 < pq_size h →
  heap_inv N cc (merge_step h) ∧ S (pq_size (merge_step h)) = pq_size h.
Proof.
  intros HN Hinv Hsize. destruct (pq_elems_merge_step h Hsize) as [Hp Hp'].
  assert (pq_elems h ≠ []) as Hne by (apply pq_size_pos; lia).
  assert (pq_elems (pq_pop h) ≠ []) as Hne'.
  { apply pq_size_pos. rewrite (pq_size_pop h Hne) in Hsize. lia. }
  split.
  - unfold heap_inv. eapply forest_inv_perm; [symmetry; exact Hp'|].
    apply forest_inv_merge; [done| | |].
    + eapply forest_inv_perm; [exact Hp|done].
    + intros T HT. apply pq_top_least. rewrite Hp. by right.
    + intros T HT. apply pq_top_least.
      rewrite (pq_top_pop (pq_pop h) Hne'). by right.
  - unfold pq_size. rewrite Hp, Hp'. done.
Qed.

(** the loop ends with one node on the heap *)
Lemma build_loop_size n : ∀ h,
  1 ≤ pq_size h → pq_size h ≤ S n → pq_size (build_loop n h) = 1.
Proof.
  induction n as [|n IH]; intros h H1 Hn; simpl; [lia|].
  case_decide; [|lia]. apply IH.
  - unfold merge_step. rewrite pq_size_push. lia.
  - assert (pq_elems h ≠ []) as Hne by (apply pq_size_pos; lia).
    assert (pq_elems (pq_pop h) ≠ []) as Hne'.
    { apply pq_size_pos. rewrite (pq_size_pop h Hne) in *. lia. }
    unfold merge_step. rewrite pq_size_push.
    rewrite (pq_size_pop h Hne), (pq_size_pop _ Hne') in Hn. lia.
Qed.

Lemma build_loop_inv N cc n : ∀ h,
  (N ≤ INT_MAX)%Z → heap_inv N cc h → heap_inv N cc (build_loop n h).
Proof.
  induction n as [|n IH]; intros h HN Hinv; simpl; [done|].
  case_decide; [|done]. apply IH; [done|]. by apply merge_step_inv.
Qed.

Lemma pq_single h : pq_size h = 1 → pq_elems h = [pq_top h].
Proof.
  intros Hsize. assert (pq_elems h ≠ []) as Hne by (apply pq_size_pos; lia).
  pose proof (pq_top_in h Hne) as Hin. unfold pq_size in Hsize.
  destruct (pq_elems h) as [|x [|??]]; simplify_eq/=.
  by apply list_elem_of_singleton in Hin as ->.
Qed.

(** [buildTree] on a heap of two nodes or more: the first two nodes are
    joined like all the others *)
Lemma buildTree_root_merge t :
  1 < pq_size (nodeHeap t) →
  root (buildTree t) =
  pq_top (build_loop (pq_size (merge_step (nodeHeap t))) (merge_step (nodeHeap t))).
Proof.
  intros Hsize. unfold buildTree.
  assert (pq_elems (nodeHeap t) ≠ []) as Hne by (apply pq_size_pos; lia).
  assert (pq_elems (pq_pop (nodeHeap t)) ≠ []) as Hne'.
  { apply pq_size_pos. rewrite (pq_size_pop _ Hne) in Hsize. lia. }
  apply pq_is_empty_false in Hne, Hne'. by rewrite Hne, Hne'.
Qed.

Lemma buildTree_root_inv N cc t :
  (N ≤ INT_MAX)%Z → heap_inv N cc (nodeHeap t) → 1 < pq_size (nodeHeap t) →
  forest_inv N cc [root (buildTree t)].
Proof.
  intros HN Hinv Hsize. rewrite buildTree_root_merge by done.
  destruct (merge_step_inv N cc _ HN Hinv Hsize) as [Hinv1 Hsize1].
  set (h1 := merge_step (nodeHeap t)) in *.
  pose proof (build_loop_inv N cc (pq_size h1) h1 HN Hinv1) as Hinv2.
  assert (pq_size (build_loop (pq_size h1) h1) = 1) as Hsize2.
  { apply build_loop_size; lia. }
  unfold heap_inv in Hinv2. by rewrite (pq_single _ Hsize2) in Hinv2.
Qed.

(** ** The heap [countCharFrequencies] leaves for [buildTree] *)

Lemma pq_elems_push_leaves items : ∀ h,
  pq_elems (push_leaves items h) ≡ₚ (leaf_of <$> items) ++ pq_elems h.
Proof.
  induction items as [|p items IH]; intros h; [done|].
  unfold push_leaves in *. simpl. rewrite IH, pq_elems_push.
  by rewrite Permutation_middle.
Qed.

Lemma count_chars_dom (input : text) : ∀ (m : gmap ascii Z),
  dom (count_chars input m) = dom m ∪ list_to_set input.
Proof.
  induction input as [|ch input IH]; intros m; simpl.
  - by rewrite (right_id_L ∅ (∪)).
  - rewrite IH. destruct (m !! ch); rewrite dom_insert_L;
      by rewrite (assoc_L (∪)), (comm_L (∪) (dom m)).
Qed.

Lemma count_chars_nonempty (input : text) :
  input ≠ [] → count_chars input ∅ ≠ ∅.
Proof.
  intros Hne Hcc. destruct input as [|ch input]; [done|].
  assert (ch ∈ dom (count_chars (ch :: input) ∅)) as Hin.
  { rewrite count_chars_dom. apply elem_of_union. right. simpl.
    apply elem_of_union. left. by apply elem_of_singleton. }
  rewrite Hcc, dom_empty_L in Hin. by apply not_elem_of_empty in Hin.
Qed.

Lemma countCharFrequencies_heap (input : text) :
  input ≠ [] →
  pq_elems (nodeHeap (countCharFrequencies HuffmanTree_init input))
  ≡ₚ leaf_of <$> map_to_list (count_chars input ∅).
Proof.
  intros Hne. unfold countCharFrequencies.
  rewrite decide_False by by apply count_chars_nonempty.
  cbn [nodeHeap HuffmanTree_init]. rewrite pq_elems_push_leaves.
  by rewrite pq_elems_empty, app_nil_r, um_items_perm.
Qed.

Lemma leaves_no_merges (items : list (ascii * Z)) :
  (leaf_of <$> items) ≫= merges = [].
Proof. induction items as [|p items IH]; [done|]. by rewrite fmap_cons, bind_cons. Qed.

Lemma total_count_leaves (items : list (ascii * Z)) :
  total_count (leaf_of <$> items) = sumZ (items.*2).
Proof.
  unfold total_count. rewrite <- list_fmap_compose. done.
Qed.

Lemma initial_forest_inv (input : text) :
  (Z.of_nat (length input) ≤ INT_MAX)%Z →
  forest_inv (Z.of_nat (length input)) (count_chars input ∅)
    (leaf_of <$> map_to_list (count_chars input ∅)).
Proof.
  intros Hlen.
  destruct (count_chars_spec input ∅) as (Hpos & Hsum & _).
  { intros k v. by rewrite lookup_empty. }
  { rewrite sum_values_empty. lia. }
  rewrite sum_values_empty, Z.add_0_l in Hsum.
  split.
  - apply Forall_fmap, Forall_forall. intros [k v] Hin%elem_of_map_to_list.
    simpl. split; [done|]. split; [done|]. by apply (Hpos k).
  - by rewrite total_count_leaves.
  - intros T ch c (p & -> & Hp)%list_elem_of_fmap Hin. destruct p as [k v].
    apply elem_of_map_to_list in Hp. simpl in Hin.
    apply list_elem_of_singleton in Hin. by injection Hin as -> ->.
  - intros T a _. rewrite leaves_no_merges. by intros ?%elem_of_nil.
  - rewrite leaves_no_merges. constructor.
Qed.

Lemma countCharFrequencies_heap_inv (input : text) :
  input ≠ [] → (Z.of_nat (length input) ≤ INT_MAX)%Z →
  heap_inv (Z.of_nat (length input)) (count_chars input ∅)
    (nodeHeap (countCharFrequencies HuffmanTree_init input)).
Proof.
  intros Hne Hlen. unfold heap_inv.
  eapply forest_inv_perm; [symmetry; by apply countCharFrequencies_heap|].
  by apply initial_forest_inv.
Qed.

Lemma countCharFrequencies_heap_size (input : text) :
  input ≠ [] →
  pq_size (nodeHeap (countCharFrequencies HuffmanTree_init input))
  = size (count_chars input ∅).
Proof.
  intros Hne. unfold pq_size. rewrite countCharFrequencies_heap by done.
  by rewrite length_fmap, length_map_to_list.
Qed.

(** ** Depth and count in the tree of [buildTree] *)

Lemma node_at_null code : node_at nullptr code = nullptr.
Proof. induction code as [|c code IH]; simpl; [done|]. by repeat case_decide. Qed.

Lemma node_at_app p code1 code2 :
  node_at p (code1 ++ code2) = node_at (node_at p code1) code2.
Proof.
  revert p. induction code1 as [|c code1 IH]; intros p; simpl; [done|].
  repeat case_decide; rewrite ?IH, ?node_at_null; done.
Qed.

Lemma node_at_step p b :
  node_at p [b] ≠ nullptr →
  (b = char0 ∧ node_at p [b] = left_of p) ∨ (b = char1 ∧ node_at p [b] = right_of p).
Proof. simpl. intros Hn. repeat case_decide; [by left|by right|done]. Qed.

Lemma huffman_shaped_node_at code : ∀ p,
  huffman_shaped p → node_at p code ≠ nullptr → huffman_shaped (node_at p code).
Proof.
  induction code as [|c code IH]; intros p Hp Hn; simpl in *; [done|].
  destruct p as [|n l r|ch n l r]; [done| |].
  - destruct Hp as (Hl & Hr & _). repeat case_decide; simpl in *; auto.
  - destruct Hp as (-> & -> & _). simpl in Hn.
    repeat case_decide; by rewrite ?node_at_null in Hn.
Qed.

Lemma count_node_at code : ∀ p,
  huffman_shaped p → node_at p code ≠ nullptr →
  (count (node_at p code) ≤ count p)%Z.
Proof.
  induction code as [|c code IH]; intros p Hp Hn; simpl in *; [done|].
  destruct p as [|n l r|ch n l r]; [done| |].
  - destruct Hp as (Hl & Hr & ->).
    pose proof (huffman_shaped_count _ Hl). pose proof (huffman_shaped_count _ Hr).
    simpl in *. repeat case_decide; [specialize (IH l Hl Hn)|specialize (IH r Hr Hn)|done];
      lia.
  - destruct Hp as (-> & -> & _). simpl in Hn.
    repeat case_decide; by rewrite ?node_at_null in Hn.
Qed.

(** the parent of a node of the tree *)
Lemma node_at_parent p code b :
  huffman_shaped p → node_at p (code ++ [b]) ≠ nullptr →
  ∃ n l r, node_at p code = CountNode n l r ∧ n = (count l + count r)%Z ∧
           (1 ≤ count l)%Z ∧ (1 ≤ count r)%Z ∧
           (node_at p (code ++ [b]) = l ∨ node_at p (code ++ [b]) = r).
Proof.
  intros Hp Hn. rewrite node_at_app in *.
  assert (node_at p code ≠ nullptr) as Hz.
  { intros Hz. by rewrite Hz, node_at_null in Hn. }
  pose proof (huffman_shaped_node_at code p Hp Hz) as Hs.
  destruct (node_at_step _ _ Hn) as [[-> Heq]|[-> Heq]]; rewrite Heq in *;
    destruct (node_at p code) as [|n l r|ch n l r]; try done.
  - destruct Hs as (Hl & Hr & ->). exists (count l + count r)%Z, l, r.
    simpl. eauto 10 using huffman_shaped_count.
  - by destruct Hs as (-> & _).
  - destruct Hs as (Hl & Hr & ->). exists (count l + count r)%Z, l, r.
    simpl. eauto 10 using huffman_shaped_count.
  - by destruct Hs as (_ & -> & _).
Qed.

Lemma merges_at_node code : ∀ p d n l r,
  huffman_shaped p → node_at p code = CountNode n l r →
  (d + length code, (count l, count r)) ∈ merges_at d p.
Proof.
  induction code as [|c code IH]; intros p d n l r Hp Hn; simpl in Hn.
  - subst p. simpl. rewrite Nat.add_0_r. by left.
  - destruct p as [|n' l' r'|ch n' l' r']; [by repeat case_decide| |].
    + destruct Hp as (Hl & Hr & _). simpl in *. right.
      replace (d + S (length code)) with (S d + length code) by lia.
      apply elem_of_app. repeat case_decide; [left|right|done]; by eapply IH.
    + destruct Hp as (-> & -> & _). simpl in Hn.
      repeat case_decide; by rewrite ?node_at_null in Hn.
Qed.

Lemma merges_at_merges p : ∀ d, (merges_at d p).*2 = merges p.
Proof.
  induction p as [|n l IHl r IHr|ch n l _ r _]; intros d; simpl; [done| |done].
  by rewrite fmap_app, IHl, IHr.
Qed.

Lemma ForallOrdPairs_fmap {A B} (f : A → B) (R : B → B → Prop) (l : list A) :
  ForallOrdPairs R (f <$> l) → ForallOrdPairs (λ a b, R (f a) (f b)) l.
Proof.
  induction l as [|x l IH]; intros HF; [constructor|].
  change (f <$> x :: l) with (f x :: (f <$> l)) in HF.
  inversion HF as [|?? Hx Hl]; subst.
  constructor; [|by apply IH]. apply Forall_forall. intros y Hy.
  rewrite Forall_forall in Hx. apply Hx. by apply list_elem_of_fmap_2.
Qed.

(** two plain nodes at different depths were made one after the other *)
Lemma merges_ordered p code1 code2 n1 l1 r1 n2 l2 r2 :
  huffman_shaped p → ForallOrdPairs ordered (merges p) →
  node_at p code1 = CountNode n1 l1 r1 → node_at p code2 = CountNode n2 l2 r2 →
  length code1 ≠ length code2 →
  ordered (count l1, count r1) (count l2, count r2).
Proof.
  intros Hp HF H1 H2 Hlen.
  rewrite <- (merges_at_merges p 0) in HF. apply ForallOrdPairs_fmap in HF.
  apply (merges_at_node _ _ 0) in H1, H2; [|done..].
  apply list_elem_of_In in H1, H2.
  destruct (ForallOrdPairs_In HF _ _ H1 H2) as [Heq|[Ho|Ho]].
  - injection Heq as Heq _. lia.
  - done.
  - by apply ordered_sym.
Qed.

Lemma snoc_length {A} (l : list A) k :
  length l = S k → ∃ l' x, l = l' ++ [x] ∧ length l' = k.
Proof.
  intros Hlen. destruct l as [|y l] using rev_ind; [done|].
  exists l, y. split; [done|]. rewrite length_app in Hlen. simpl in Hlen. lia.
Qed.

(** In the tree of [buildTree] a node of lesser count is not nearer to the
    root than a node of greater count. *)
Lemma depth_monotone T :
  huffman_shaped T → ForallOrdPairs ordered (merges T) →
  ∀ k pu pv, length pv = k →
    node_at T pu ≠ nullptr → node_at T pv ≠ nullptr →
    (count (node_at T pu) < count (node_at T pv))%Z →
    length pv ≤ length pu.
Proof.
  intros HT HF k. induction k as [|k IH]; intros pu pv Hk Hu Hv Hlt; [lia|].
  destruct (snoc_length pv k Hk) as (pv' & bv & -> & Hk').
  destruct (decide (length pu < S k)) as [Hshort|]; [|lia]. exfalso.
  destruct pu as [|bu pu'] using rev_ind.
  { pose proof (count_node_at _ T HT Hv). simpl in Hlt. lia. }
  clear IHpu'. rewrite length_app in Hshort. simpl in Hshort.
  destruct (node_at_parent T pu' bu HT Hu)
    as (nu & lu & ru & Hzu & -> & Hlu & Hru & Hcu).
  destruct (node_at_parent T pv' bv HT Hv)
    as (nv & lv & rv & Hzv & -> & Hlv & Hrv & Hcv).
  assert (ordered (count lu, count ru) (count lv, count rv)) as Hord.
  { eapply merges_ordered; eauto. lia. }
  assert (count (node_at T pu') < count (node_at T pv'))%Z as Hlt'.
  { rewrite Hzu, Hzv. simpl. unfold ordered, before in Hord. simpl in Hord.
    destruct Hcu as [Hcu|Hcu], Hcv as [Hcv|Hcv]; rewrite Hcu, Hcv in Hlt; lia. }
  assert (length pv' ≤ length pu'); [|lia].
  apply IH; [done| | |done].
  - by rewrite Hzu.
  - by rewrite Hzv.
Qed.

(** ** From the code table back to the tree *)

Lemma letter_paths_node_at T : huffman_shaped T → ∀ pre a c,
  (a, c) ∈ letter_paths T pre →
  ∃ path w, c = pre ++ path ∧ node_at T path = HuffmanTreeNode a w nullptr nullptr ∧
            (a, w) ∈ leaves T.
Proof.
  induction T as [|n l IHl r IHr|ch n l _ r _]; intros HT pre a c Hin; simpl in *.
  - by apply elem_of_nil in Hin.
  - destruct HT as (Hl & Hr & _). apply elem_of_app in Hin as [Hin|Hin].
    + destruct (IHl Hl _ _ _ Hin) as (path & w & -> & Hn & Hw).
      exists (char0 :: path), w. rewrite <- app_assoc. split; [done|].
      simpl. split; [done|]. apply elem_of_app. by left.
    + destruct (IHr Hr _ _ _ Hin) as (path & w & -> & Hn & Hw).
      exists (char1 :: path), w. rewrite <- app_assoc. split; [done|].
      simpl. split; [done|]. apply elem_of_app. by right.
  - destruct HT as (-> & -> & _). apply list_elem_of_singleton in Hin.
    injection Hin as -> ->. exists [], n. rewrite app_nil_r.
    split; [done|]. split; [done|]. by apply list_elem_of_singleton.
Qed.

Lemma codeMap_letter_paths t a c :
  pq_is_empty (nodeHeap t) = false → codeMap (buildTree t) !! a = Some c →
  (a, c) ∈ letter_paths (root (buildTree t)) [].
Proof.
  intros Hne Ha. rewrite buildTree_codeMap in Ha by done.
  rewrite traverseForCodeMap_paths in Ha.
  by apply enter_codes_lookup in Ha as [Ha|Ha]; [rewrite lookup_empty in Ha|].
Qed.

(** ** One letter *)

Lemma buildTree_single t r :
  pq_elems (nodeHeap t) = [r] →
  root (buildTree t) = CountNode (count r) nullptr r.
Proof.
  intros Hel. unfold buildTree.
  assert (pq_elems (nodeHeap t) ≠ []) as Hne by by rewrite Hel.
  pose proof (pq_top_in _ Hne) as Htop. rewrite Hel in Htop.
  apply list_elem_of_singleton in Htop.
  pose proof (pq_top_pop _ Hne) as Hpop. rewrite Hel, Htop in Hpop.
  apply Permutation_length in Hpop. simpl in Hpop.
  assert (pq_elems (pq_pop (nodeHeap t)) = []) as Hpop'.
  { destruct (pq_elems (pq_pop (nodeHeap t))); [done|simpl in Hpop; lia]. }
  apply pq_is_empty_false in Hne. apply pq_is_empty_true in Hpop' as Hpe.
  rewrite Hne, Hpe, Htop. cbn [root].
  set (root0 := CountNode (count r) nullptr r).
  set (h1 := pq_push root0 (pq_pop (nodeHeap t))).
  assert (pq_elems h1 = [root0]) as Hh1.
  { apply Permutation_singleton_r. unfold h1. by rewrite pq_elems_push, Hpop'. }
  assert (pq_size h1 = 1) as Hs1 by (unfold pq_size; by rewrite Hh1).
  rewrite Hs1. simpl. rewrite decide_False by lia.
  assert (pq_top h1 ∈ pq_elems h1) as Hin by (apply pq_top_in; by rewrite Hh1).
  rewrite Hh1 in Hin. by apply list_elem_of_singleton in Hin.
Qed.

Lemma single_letter_tree (input : text) k v :
  count_chars input ∅ = {[k := v]} →
  let t := buildTree (countCharFrequencies HuffmanTree_init input) in
  root t = CountNode v nullptr (new_HuffmanTreeNode k v) ∧
  codeMap t = {[k := [char1]]}.
Proof.
  intros Hcc t.
  assert (input ≠ []) as Hne.
  { intros ->. simpl in Hcc. symmetry in Hcc. by apply map_non_empty_singleton in Hcc. }
  assert (pq_elems (nodeHeap (countCharFrequencies HuffmanTree_init input))
          = [new_HuffmanTreeNode k v]) as Hel.
  { apply Permutation_singleton_r. rewrite countCharFrequencies_heap by done.
    by rewrite Hcc, map_to_list_singleton. }
  assert (root t = CountNode v nullptr (new_HuffmanTreeNode k v)) as Hroot.
  { unfold t. by rewrite (buildTree_single _ _ Hel). }
  split; [done|]. unfold t. rewrite buildTree_codeMap.
  - fold t. rewrite Hroot. simpl. by rewrite insert_empty.
  - apply pq_is_empty_false. by rewrite Hel.
Qed.

Lemma map_size_one {V} (m : gmap ascii V) : size m = 1 → ∃ k v, m = {[k := v]}.
Proof.
  intros Hs. rewrite <- (size_dom (D := gset ascii)) in Hs.
  apply size_1_elem_of in Hs as [k Hk]. exists k. by apply dom_singleton_inv.
Qed.

Lemma frequency_nil a : frequency a [] = 0%Z.
Proof. done. Qed.

(** ** Code lengths *)

(** C8 (as amended): for an input whose length an [int] can hold, a
    letter that occurs more often than another one gets a code that is
    not longer. *)
Theorem code_length_monotone (input : text) a b ca cb :
  (Z.of_nat (length input) ≤ INT_MAX)%Z →
  codeMap (buildTree (countCharFrequencies HuffmanTree_init input)) !! a = Some ca →
  codeMap (buildTree (countCharFrequencies HuffmanTree_init input)) !! b = Some cb →
  (frequency b input < frequency a input)%Z →
  length ca ≤ length cb.
Proof.
  intros Hlen Ha Hb Hfreq.
  assert (input ≠ []) as Hne by (intros ->; simpl in Hfreq; lia).
  set (t0 := countCharFrequencies HuffmanTree_init input) in *.
  set (cc := count_chars input ∅).
  pose proof (countCharFrequencies_heap_size input Hne) as Hsize. fold t0 cc in Hsize.
  destruct (decide (1 < pq_size (nodeHeap t0))) as [Hbig|Hsmall].
  - pose proof (countCharFrequencies_heap_inv input Hne Hlen) as Hinv.
    fold t0 cc in Hinv.
    pose proof (buildTree_root_inv _ _ t0 Hlen Hinv Hbig) as [Hs _ Hl _ Ho].
    rewrite Forall_singleton in Hs.
    change ([root (buildTree t0)] ≫= merges) with (merges (root (buildTree t0)) ++ [])
      in Ho. rewrite app_nil_r in Ho.
    assert (pq_is_empty (nodeHeap t0) = false) as Hpe.
    { apply pq_is_empty_false, pq_size_pos. lia. }
    apply codeMap_letter_paths in Ha, Hb; [|done..].
    destruct (letter_paths_node_at _ Hs _ _ _ Ha) as (pa & wa & -> & Hna & Hwa).
    destruct (letter_paths_node_at _ Hs _ _ _ Hb) as (pb & wb & -> & Hnb & Hwb).
    apply (Hl _ a wa (list_elem_of_here _ _)) in Hwa.
    apply (Hl _ b wb (list_elem_of_here _ _)) in Hwb.
    destruct (count_chars_spec input ∅) as (_ & _ & Hcc).
    { intros k v. by rewrite lookup_empty. }
    { rewrite sum_values_empty. lia. }
    fold cc in Hcc. rewrite Hcc, lookup_empty in Hwa, Hwb.
    repeat case_decide; simplify_eq.
    simpl. eapply (depth_monotone _ Hs Ho); [done| | |].
    + by rewrite Hnb.
    + by rewrite Hna.
    + by rewrite Hna, Hnb.
  - assert (size cc = 1) as Hone.
    { assert (cc ≠ ∅) as Hcc by by apply count_chars_nonempty.
      apply map_size_non_empty_iff in Hcc. lia. }
    destruct (map_size_one cc Hone) as (k & v & Hkv).
    destruct (single_letter_tree input k v Hkv) as [_ Hcm]. fold t0 in Hcm.
    rewrite Hcm in Ha, Hb.
    apply lookup_singleton_Some in Ha as [<- _], Hb as [<- _]. lia.
Qed.

(** ** The shape of the trees *)

Lemma two_letters (input : text) a b :
  a ∈ input → b ∈ input → a ≠ b → 1 < size (count_chars input ∅).
Proof.
  intros Ha Hb Hab. rewrite <- (size_dom (D := gset ascii)).
  rewrite count_chars_dom, dom_empty_L, (left_id_L ∅ (∪)).
  assert (size ({[a]} ∪ {[b]} : gset ascii) = 2) as H2.
  { rewrite size_union, !size_singleton; [done|].
    apply disjoint_singleton_l. by intros ?%elem_of_singleton. }
  assert (size ({[a]} ∪ {[b]} : gset ascii) ≤ size (list_to_set input : gset ascii));
    [|lia].
  apply subseteq_size. intros x [Hx|Hx]%elem_of_union;
    apply elem_of_singleton in Hx as ->; by apply elem_of_list_to_set.
Qed.

Lemma zero_counts_left p : zero_counts p → zero_counts (left_of p).
Proof. destruct p; simpl; tauto. Qed.

Lemma zero_counts_right p : zero_counts p → zero_counts (right_of p).
Proof. destruct p; simpl; tauto. Qed.

Lemma zero_counts_set_left p q :
  zero_counts p → zero_counts q → zero_counts (set_left p q).
Proof. destruct p; simpl; tauto. Qed.

Lemma zero_counts_set_right p q :
  zero_counts p → zero_counts q → zero_counts (set_right p q).
Proof. destruct p; simpl; tauto. Qed.

Lemma place_letter_zero n : ∀ binary ch current,
  zero_counts current → zero_counts (place_letter n binary ch current).
Proof.
  induction n as [|n IH]; intros binary ch current Hz; simpl.
  - case_decide; [apply zero_counts_set_right|apply zero_counts_set_left];
      simpl; auto.
  - case_decide; [apply zero_counts_set_right|apply zero_counts_set_left];
      try done; apply IH.
    + destruct (is_null _); [simpl; auto|by apply zero_counts_right].
    + destruct (is_null _); [simpl; auto|by apply zero_counts_left].
Qed.

Lemma table_loop_zero fuel : ∀ (r : reconstruction) T,
  zero_counts (local_root r) →
  reconstructed (table_loop fuel r) = Some T → zero_counts T.
Proof.
  induction fuel as [|fuel IH]; intros r T Hz; simpl; [done|].
  destruct (getline (input_rest r)) as [[[|ch s] rest]|];
    [by intros [= <-]| |by intros [= <-]].
  unfold table_record. destruct (stoi s) as [e|binary]; [by intros [= <-]|].
  apply IH. simpl. by apply place_letter_zero.
Qed.

Lemma place_letter_new_plain n binary ch :
  is_plain (place_letter n binary ch new_CountNode).
Proof. destruct n; simpl; by case_decide. Qed.

Lemma place_letter_one_child n binary ch :
  is_null (left_of (place_letter n binary ch new_CountNode))
  = negb (is_null (right_of (place_letter n binary ch new_CountNode))).
Proof.
  destruct n as [|n]; simpl; case_decide; simpl; try done;
    pose proof (place_letter_new_plain n (Z.shiftr binary 1) ch) as Hp;
    by destruct (place_letter n _ ch _).
Qed.

(** C6 (as amended).  [buildTree]: when the input has two different
    characters or more (and a length an [int] can hold), every plain node
    of the tree has both children and its count is the sum of their
    counts; when the input repeats one character, the root has a right
    child only, the letter node, and carries its count.
    [reconstructTree]: every count in its tree is 0, and its plain nodes
    need not have both children: for a table of one record the root has
    exactly one child. *)
Theorem tree_nodes_children_and_counts :
  (∀ (input : text) a b,
     (Z.of_nat (length input) ≤ INT_MAX)%Z →
     a ∈ input → b ∈ input → a ≠ b →
     huffman_shaped (root (buildTree (countCharFrequencies HuffmanTree_init input)))) ∧
  (∀ c n, ∃ v,
     root (buildTree (countCharFrequencies HuffmanTree_init (replicate (S n) c)))
     = CountNode v nullptr (new_HuffmanTreeNode c v)) ∧
  (∀ t input T,
     reconstructed (reconstructTree t input) = Some T → zero_counts T) ∧
  (∀ t ch s_binary v payload,
     record_line (ch :: s_binary) → stoi s_binary = inr v →
     ∃ r,
       reconstructTree t (table_text [ch :: s_binary] ++ newline :: payload)
       = Returned r ∧
       is_plain (local_root r) ∧
       is_null (left_of (local_root r)) = negb (is_null (right_of (local_root r))) ∧
       ¬ huffman_shaped (local_root r)).
Proof.
  split; [|split; [|split]].
  - intros input a b Hlen Ha Hb Hab.
    assert (input ≠ []) as Hne by (intros ->; by apply elem_of_nil in Ha).
    pose proof (countCharFrequencies_heap_inv input Hne Hlen) as Hinv.
    pose proof (countCharFrequencies_heap_size input Hne) as Hsize.
    pose proof (two_letters input a b Ha Hb Hab) as Htwo.
    rewrite <- Hsize in Htwo.
    pose proof (buildTree_root_inv _ _ _ Hlen Hinv Htwo) as [Hs _ _ _ _].
    by rewrite Forall_singleton in Hs.
  - intros c n.
    destruct (dom_singleton_inv_L (count_chars (replicate (S n) c) ∅) c) as [v Hv].
    { rewrite count_chars_dom, dom_empty_L, (left_id_L ∅ (∪)).
      clear. induction n as [|n IH]; simpl in *.
      - by rewrite (right_id_L ∅ (∪)).
      - rewrite IH. by rewrite (idemp_L (∪)). }
    exists v. by apply single_letter_tree.
  - intros t input T. unfold reconstructTree. apply table_loop_zero. simpl. auto.
  - intros t ch s_binary v payload Hline Hv. unfold reconstructTree.
    set (t0 := {| root := root t; nodeHeap := nodeHeap t;
                  codeMap := ∅; reverseCodeMap := ∅ |}).
    pose proof (table_loop_lines [ch :: s_binary]
      {| members := t0; local_root := new_CountNode;
         input_rest := table_text [ch :: s_binary] ++ newline :: payload |}
      (newline :: payload) _ (proj2 (Forall_singleton _ _) Hline) eq_refl
      (Nat.lt_succ_diag_r _)) as Hl.
    cbn [members local_root input_rest run_records] in Hl.
    unfold table_record in Hl. rewrite Hv in Hl.
    rewrite Hl, table_loop_blank. eexists. split; [done|].
    cbn [local_root].
    pose proof (place_letter_new_plain (length s_binary - 1) v ch) as Hp.
    pose proof (place_letter_one_child (length s_binary - 1) v ch) as Hc.
    split; [done|]. split; [done|].
    destruct (place_letter _ v ch new_CountNode) as [|c l r|k c l r]; [done| |done].
    simpl in Hc. intros (Hshl & Hshr & _).
    destruct l, r; done.
Qed.

(** ** An input that repeats one character *)

Lemma count_chars_replicate c n :
  ∃ v, count_chars (replicate (S n) c) ∅ = {[c := v]}.
Proof.
  apply dom_singleton_inv_L.
  rewrite count_chars_dom, dom_empty_L, (left_id_L ∅ (∪)).
  induction n as [|n IH]; simpl in *.
  - by rewrite (right_id_L ∅ (∪)).
  - rewrite IH. by rewrite (idemp_L (∪)).
Qed.

Lemma write_payload_replicate c code n : ∀ out,
  write_payload (replicate n c) {[c := code]} out
  = ({[c := code]}, put out (mjoin (replicate n code))).
Proof.
  induction n as [|n IH]; intros out; simpl.
  - unfold put. rewrite app_nil_r. by destruct out.
  - unfold index_codeMap. rewrite lookup_singleton_eq, IH.
    unfold put. simpl. by rewrite <- app_assoc.
Qed.

Lemma decode_loop_replicate c n : ∀ out,
  decode_loop (replicate n char1) [] {[ [char1] := c ]} out
  = put out (replicate n c).
Proof.
  induction n as [|n IH]; intros out; simpl.
  - unfold put. rewrite app_nil_r. by destruct out.
  - rewrite lookup_singleton_eq, IH. unfold put. simpl. by rewrite <- app_assoc.
Qed.

Lemma mjoin_replicate_singleton {A} (x : A) n :
  mjoin (replicate n [x]) = replicate n x.
Proof. induction n as [|n IH]; simpl; [done|]. by rewrite IH. Qed.

(** C7 (as amended): an input that repeats one character other than the
    newline is encoded with a table of exactly one entry, whose code is
    one character long, and [decode] gives the input back from what
    [encode] wrote. *)
Theorem single_symbol_round_trip c n (t2 : HuffmanTree) :
  c ≠ newline →
  ∃ t1 out code t3,
    encode HuffmanTree_init (replicate (S n) c) = (t1, out) ∧
    codeMap t1 = {[c := code]} ∧ 1 ≤ length code ∧
    decode t2 (written out)
    = Returned (t3, {| opened := true; written := replicate (S n) c |}).
Proof.
  intros Hc. destruct (count_chars_replicate c n) as [v Hv].
  destruct (single_letter_tree _ c v Hv) as [_ Hcm].
  unfold encode. rewrite Hcm, um_items_singleton, write_payload_replicate.
  eexists _, _, [char1], _. split; [done|]. cbn [codeMap]. split; [done|].
  split; [simpl; lia|].
  rewrite mjoin_replicate_singleton. simpl written.
  change (c :: char1 :: newline :: newline :: char1 :: replicate n char1)
    with (table_text [[c; char1]] ++ newline :: replicate (S n) char1).
  unfold decode, reconstructTree.
  set (t0 := {| root := root t2; nodeHeap := nodeHeap t2;
                codeMap := ∅; reverseCodeMap := ∅ |}).
  pose proof (table_loop_lines [[c; char1]]
    {| members := t0; local_root := new_CountNode;
       input_rest := table_text [[c; char1]] ++ newline :: replicate (S n) char1 |}
    (newline :: replicate (S n) char1)
    (S (length (table_text [[c; char1]] ++ newline :: replicate (S n) char1))))
    as Hl.
  cbn [members local_root input_rest run_records] in Hl.
  unfold table_record in Hl.
  change (stoi [char1]) with (inr 1%Z : exn + Z) in Hl. cbv beta iota in Hl.
  rewrite Hl; [|repeat constructor; [done|]|done|lia].
  - rewrite table_loop_blank. unfold t0. cbn [members input_rest reverseCodeMap].
    rewrite insert_empty, decode_loop_replicate. done.
  - intros [?|[?|?%elem_of_nil]%elem_of_cons]%elem_of_cons;
      [congruence|discriminate|done].
Qed.

(** ** The letters of the tree, whatever the counts *)

Lemma merge_step_leaves h :
  1 < pq_size h → pq_elems (merge_step h) ≫= leaves ≡ₚ pq_elems h ≫= leaves.
Proof.
  intros Hsize. destruct (pq_elems_merge_step h Hsize) as [Hp Hp'].
  rewrite Hp, Hp', !bind_cons. simpl.
  by rewrite (Permutation_app_comm (leaves (pq_top (pq_pop h)))), <- app_assoc.
Qed.

Lemma build_loop_leaves n : ∀ h,
  pq_elems (build_loop n h) ≫= leaves ≡ₚ pq_elems h ≫= leaves.
Proof.
  induction n as [|n IH]; intros h; simpl; [done|].
  case_decide; [|done]. by rewrite IH, merge_step_leaves.
Qed.

Lemma build_loop_plain n : ∀ h,
  (∃ x, x ∈ pq_elems h ∧ is_plain x) →
  ∃ x, x ∈ pq_elems (build_loop n h) ∧ is_plain x.
Proof.
  induction n as [|n IH]; intros h Hx; simpl; [done|].
  case_decide; [|done]. apply IH. eexists.
  split; [unfold merge_step; rewrite pq_elems_push; by left|exact I].
Qed.

(** the root of [buildTree] is a plain node, and the letter nodes of the
    tree are those of the heap *)
Lemma buildTree_leaves t :
  pq_is_empty (nodeHeap t) = false →
  is_plain (root (buildTree t)) ∧
  leaves (root (buildTree t)) ≡ₚ pq_elems (nodeHeap t) ≫= leaves.
Proof.
  intros Hne. apply pq_is_empty_false in Hne as Hne'.
  destruct (decide (1 < pq_size (nodeHeap t))) as [Hbig|Hsmall].
  - rewrite buildTree_root_merge by done.
    set (h1 := merge_step (nodeHeap t)).
    assert (pq_size (build_loop (pq_size h1) h1) = 1) as Hsize.
    { apply build_loop_size; [|lia]. unfold h1, merge_step.
      rewrite pq_size_push. lia. }
    pose proof (pq_single _ Hsize) as Hel.
    destruct (build_loop_plain (pq_size h1) h1) as (x & Hx & Hplain).
    { eexists.
      split; [unfold h1, merge_step; rewrite pq_elems_push; by left|exact I]. }
    rewrite Hel in Hx. apply list_elem_of_singleton in Hx as ->.
    split; [done|].
    etrans; [|apply (merge_step_leaves _ Hbig)].
    etrans; [|apply (build_loop_leaves (pq_size h1) h1)].
    by rewrite Hel, bind_cons, app_nil_r.
  - assert (∃ r, pq_elems (nodeHeap t) = [r]) as [r Hr].
    { unfold pq_size in Hsmall.
      destruct (pq_elems (nodeHeap t)) as [|r [|??]]; [done|by eexists|].
      simpl in Hsmall. lia. }
    rewrite (buildTree_single t r Hr), Hr. split; [done|].
    by rewrite bind_cons, app_nil_r.
Qed.

Lemma leaves_of_leaves (items : list (ascii * Z)) :
  (leaf_of <$> items) ≫= leaves = items.
Proof.
  induction items as [|[k v] items IH]; [done|].
  rewrite fmap_cons, bind_cons, IH. done.
Qed.

Lemma encode_tree_leaves (input : text) :
  input ≠ [] →
  let t := buildTree (countCharFrequencies HuffmanTree_init input) in
  is_plain (root t) ∧ leaves (root t) ≡ₚ map_to_list (count_chars input ∅).
Proof.
  intros Hne t.
  pose proof (countCharFrequencies_heap input Hne) as Hheap.
  destruct (buildTree_leaves (countCharFrequencies HuffmanTree_init input))
    as [Hplain Hleaves].
  { apply pq_is_empty_false. intros Hnil. rewrite Hnil in Hheap.
    apply Permutation_nil_l in Hheap. symmetry in Hheap.
    apply fmap_nil_inv in Hheap.
    apply map_to_list_empty_iff in Hheap. by apply count_chars_nonempty in Hheap. }
  split; [done|]. unfold t. by rewrite Hleaves, Hheap, leaves_of_leaves.
Qed.

Lemma letter_paths_letters p : ∀ pre, (letter_paths p pre).*1 = (leaves p).*1.
Proof.
  induction p as [|n l IHl r IHr|ch n l _ r _]; intros pre; simpl; [done| |done].
  by rewrite !fmap_app, IHl, IHr.
Qed.

Lemma letter_paths_bits p : ∀ pre a c,
  (a, c) ∈ letter_paths p pre → ∃ bits, c = pre ++ bits ∧ Forall is_bit bits.
Proof.
  induction p as [|n l IHl r IHr|ch n l _ r _]; intros pre a c Hin; simpl in Hin.
  - by apply elem_of_nil in Hin.
  - apply elem_of_app in Hin as [Hin|Hin].
    + destruct (IHl _ _ _ Hin) as (bits & -> & Hbits).
      exists (char0 :: bits). rewrite <- app_assoc. split; [done|].
      constructor; [by left|done].
    + destruct (IHr _ _ _ Hin) as (bits & -> & Hbits).
      exists (char1 :: bits). rewrite <- app_assoc. split; [done|].
      constructor; [by right|done].
  - apply list_elem_of_singleton in Hin. injection Hin as -> ->.
    exists []. by rewrite app_nil_r.
Qed.

(** one path, one letter node *)
Lemma letter_paths_inj p : ∀ pre a1 a2 c,
  (a1, c) ∈ letter_paths p pre → (a2, c) ∈ letter_paths p pre → a1 = a2.
Proof.
  induction p as [|n l IHl r IHr|ch n l _ r _]; intros pre a1 a2 c H1 H2;
    simpl in H1, H2.
  - by apply elem_of_nil in H1.
  - apply elem_of_app in H1 as [H1|H1]; apply elem_of_app in H2 as [H2|H2];
      [by eapply IHl| | |by eapply IHr];
      apply letter_paths_prefix in H1, H2.
    + by destruct (sides_incomparable pre c c).
    + by destruct (sides_incomparable pre c c).
  - apply list_elem_of_singleton in H1, H2. congruence.
Qed.

Lemma letter_paths_plain p a c :
  is_plain p → (a, c) ∈ letter_paths p [] → c ≠ [].
Proof.
  destruct p as [|n l r|]; [done| |done]. intros _ Hin. simpl in Hin.
  apply elem_of_app in Hin as [Hin|Hin]; apply letter_paths_prefix in Hin;
    intros ->; by apply prefix_nil_inv in Hin.
Qed.

Lemma enter_codes_other l : ∀ (cm : gmap ascii text) a,
  a ∉ l.*1 → enter_codes cm l !! a = cm !! a.
Proof.
  induction l as [|[k v] l IH]; intros cm a Ha; [done|]. simpl in *.
  apply not_elem_of_cons in Ha as [Hne Ha]. unfold enter_codes in *. simpl.
  rewrite IH by done. by rewrite lookup_insert_ne.
Qed.

Lemma enter_codes_lookup_2 l : ∀ (cm : gmap ascii text) a c,
  NoDup l.*1 → (a, c) ∈ l → enter_codes cm l !! a = Some c.
Proof.
  induction l as [|[k v] l IH]; intros cm a c Hnd Hin;
    [by apply elem_of_nil in Hin|].
  simpl in Hnd. apply NoDup_cons in Hnd as [Hk Hnd].
  apply elem_of_cons in Hin as [[= -> ->]|Hin].
  - unfold enter_codes. simpl. fold (enter_codes (<[k:=v]> cm) l).
    rewrite enter_codes_other by done. apply lookup_insert_eq.
  - unfold enter_codes. simpl. by apply IH.
Qed.

(** The code table [buildTree] derives is one [decode] can invert. *)
Lemma encode_code_table (input : text) :
  input ≠ [] →
  code_table_for input
    (codeMap (buildTree (countCharFrequencies HuffmanTree_init input))).
Proof.
  intros Hne. set (t := buildTree (countCharFrequencies HuffmanTree_init input)).
  destruct (encode_tree_leaves input Hne) as [Hplain Hleaves]. fold t in Hplain, Hleaves.
  assert (pq_is_empty (nodeHeap (countCharFrequencies HuffmanTree_init input)) = false)
    as Hpe.
  { apply pq_is_empty_false. intros Hnil.
    pose proof (countCharFrequencies_heap input Hne) as Hheap. rewrite Hnil in Hheap.
    apply Permutation_nil_l in Hheap. symmetry in Hheap.
    apply fmap_nil_inv in Hheap.
    apply map_to_list_empty_iff in Hheap. by apply count_chars_nonempty in Hheap. }
  assert (codeMap t = enter_codes ∅ (letter_paths (root t) [])) as Hcm.
  { unfold t. by rewrite buildTree_codeMap, traverseForCodeMap_paths. }
  assert (∀ a c, codeMap t !! a = Some c → (a, c) ∈ letter_paths (root t) []) as Hin.
  { intros a c Ha. rewrite Hcm in Ha.
    by apply enter_codes_lookup in Ha as [Ha|Ha]; [rewrite lookup_empty in Ha|]. }
  assert ((letter_paths (root t) []).*1 ≡ₚ (map_to_list (count_chars input ∅)).*1)
    as Hkeys by by rewrite letter_paths_letters, Hleaves.
  split.
  - intros a Ha.
    assert (a ∈ (letter_paths (root t) []).*1) as Hin'.
    { rewrite Hkeys.
      assert (a ∈ dom (count_chars input ∅)) as Hd.
      { rewrite count_chars_dom. apply elem_of_union. right.
        by apply elem_of_list_to_set. }
      apply elem_of_dom in Hd as [v Hv]. apply list_elem_of_fmap.
      exists (a, v). split; [done|]. by apply elem_of_map_to_list. }
    apply list_elem_of_fmap in Hin' as ([a' c] & -> & Hin'). exists c. rewrite Hcm.
    apply enter_codes_lookup_2; [|done]. rewrite Hkeys. apply NoDup_fst_map_to_list.
  - intros a c Ha. apply Hin in Ha.
    assert (a ∈ (letter_paths (root t) []).*1) as Hin'.
    { apply list_elem_of_fmap. by exists (a, c). }
    rewrite Hkeys in Hin'. apply list_elem_of_fmap in Hin' as ([a' v] & -> & Hin').
    apply elem_of_map_to_list in Hin'.
    assert (a' ∈ dom (count_chars input ∅)) as Hd by (apply elem_of_dom; eauto).
    rewrite count_chars_dom, dom_empty_L, (left_id_L ∅ (∪)) in Hd.
    by apply elem_of_list_to_set in Hd.
  - intros a c Ha. apply Hin in Ha. split; [by eapply letter_paths_plain|].
    apply letter_paths_bits in Ha as (bits & -> & Hbits). done.
  - intros a1 a2 c1 c2 H1 H2 Hp. apply Hin in H1, H2.
    assert (c1 = c2) as -> by by eapply letter_paths_prefix_free.
    by eapply letter_paths_inj.
Qed.

(** ** What [encode] writes *)

Lemma put_put out s1 s2 : put (put out s1) s2 = put out (s1 ++ s2).
Proof. unfold put. simpl. by rewrite <- app_assoc. Qed.

Lemma put_nil out : put out [] = out.
Proof. unfold put. rewrite app_nil_r. by destruct out. Qed.

Lemma write_table_written items : ∀ out,
  write_table items out = put out (table_text (line_of <$> items)).
Proof.
  induction items as [|[k v] items IH]; intros out.
  - simpl. by rewrite put_nil.
  - unfold write_table in *. simpl. rewrite IH. unfold endl.
    rewrite !put_put. unfold table_text, line_of. simpl.
    by rewrite <- app_assoc.
Qed.

(** C2 (as amended): on the empty input [encode] is not a no-op: the
    output file is opened (created) all the same, and [encode] returns
    after writing to it.  On an object whose heap is empty it writes the
    table lines of the code table the object holds, then the blank line
    that ends the table section, and no payload character, and it leaves
    the object as it was.  For an object whose members are empty the
    output is the blank line alone. *)
Theorem encode_empty_input :
  (∀ t, pq_elems (nodeHeap t) = [] →
     encode t [] =
       (t, {| opened := true;
              written := table_text (line_of <$> um_items (codeMap t))
                         ++ [newline] |})) ∧
  encode HuffmanTree_init [] =
    (HuffmanTree_init, {| opened := true; written := [newline] |}).
Proof.
  assert (∀ t, pq_elems (nodeHeap t) = [] →
            encode t [] =
              (t, {| opened := true;
                     written := table_text (line_of <$> um_items (codeMap t))
                                ++ [newline] |})) as Hany.
  { intros t Hheap. unfold encode. rewrite countCharFrequencies_empty.
    rewrite buildTree_empty_heap by by apply pq_is_empty_true.
    cbn [write_payload]. rewrite write_table_written. unfold endl.
    rewrite put_put. by destruct t. }
  split; [exact Hany|].
  rewrite Hany by apply pq_elems_empty.
  cbn [codeMap HuffmanTree_init]. by rewrite um_items_empty.
Qed.

Lemma write_payload_written (input : text) : ∀ cm out,
  (∀ a, a ∈ input → is_Some (cm !! a)) →
  write_payload input cm out = (cm, put out (input ≫= code_of cm)).
Proof.
  induction input as [|ch input IH]; intros cm out Hall; simpl.
  - by rewrite put_nil.
  - unfold index_codeMap. destruct (Hall ch) as [c Hc]; [by left|].
    rewrite Hc, IH by (intros a Ha; apply Hall; by right).
    rewrite put_put. unfold code_of at 2. by rewrite Hc.
Qed.

Lemma encode_written (input : text) :
  input ≠ [] →
  let cm := codeMap (buildTree (countCharFrequencies HuffmanTree_init input)) in
  (encode HuffmanTree_init input).2 =
    {| opened := true;
       written := table_text (line_of <$> um_items cm)
                  ++ newline :: (input ≫= code_of cm) |}.
Proof.
  intros Hne cm. unfold encode. fold cm.
  rewrite write_payload_written by apply (ct_total _ _ (encode_code_table input Hne)).
  simpl. rewrite write_table_written. unfold endl. rewrite !put_put.
  unfold put, ofstream_open. simpl. done.
Qed.

(** ** What [decode] reads back *)

Lemma run_records_items items : ∀ t lroot,
  (∀ e : ascii * text, e ∈ items → ∃ v, stoi e.2 = inr v) →
  ∃ t' lroot', run_records (line_of <$> items) t lroot = Returned (t', lroot') ∧
               reverseCodeMap t' = enter_reverse (reverseCodeMap t) items.
Proof.
  induction items as [|[k c] items IH]; intros t lroot Hconv; [by eexists _, _|].
  destruct (Hconv (k, c)) as [v Hv]; [by left|]. simpl in Hv.
  simpl. unfold table_record. rewrite Hv.
  match goal with |- context [run_records _ ?t1 ?lr1] =>
    destruct (IH t1 lr1) as (t' & lroot' & Hrun & Hrev) end.
  { intros e He. apply Hconv. by right. }
  exists t', lroot'. split; [done|]. by rewrite Hrev.
Qed.

Lemma enter_reverse_lookup_1 l : ∀ (rev : gmap text ascii) x a,
  enter_reverse rev l !! x = Some a → rev !! x = Some a ∨ (a, x) ∈ l.
Proof.
  induction l as [|[k c] l IH]; intros rev x a Hl; [by left|].
  unfold enter_reverse in *. simpl in Hl. apply IH in Hl as [Hl|Hl]; [|right; by right].
  simpl in Hl. destruct (decide (c = x)) as [->|Hne].
  - rewrite lookup_insert_eq in Hl. injection Hl as ->. right. by left.
  - rewrite lookup_insert_ne in Hl by done. by left.
Qed.

Lemma enter_reverse_lookup_2 l : ∀ (rev : gmap text ascii) c a,
  (∀ a', (a', c) ∈ l → a' = a) →
  rev !! c = Some a ∨ (a, c) ∈ l →
  enter_reverse rev l !! c = Some a.
Proof.
  induction l as [|[k x] l IH]; intros rev c a Hfun Hin.
  - destruct Hin as [Hin|Hin]; [done|by apply elem_of_nil in Hin].
  - unfold enter_reverse in *. simpl. apply IH.
    + intros a' Ha'. apply Hfun. by right.
    + simpl. destruct (decide (x = c)) as [->|Hne].
      * left. rewrite lookup_insert_eq. f_equal. apply Hfun. by left.
      * rewrite lookup_insert_ne by done. destruct Hin as [Hin|Hin]; [by left|].
        apply elem_of_cons in Hin as [[= -> ->]|Hin]; [done|by right].
Qed.

Lemma is_bit_not_space b : is_bit b → isspace b = false.
Proof. by intros [->| ->]. Qed.

Lemma is_bit_not_newline b : is_bit b → b ≠ newline.
Proof. by intros [->| ->]. Qed.

(** the characters of one code bring its letter out *)
Lemma decode_loop_code (input : text) (cm : gmap ascii text)
    (rev : gmap text ascii) a code :
  code_table_for input cm →
  (∀ a c, rev !! c = Some a ↔ cm !! a = Some c) →
  cm !! a = Some code →
  ∀ sfx pre rest out,
    pre ++ sfx = code → sfx ≠ [] →
    decode_loop (sfx ++ rest) pre rev out = decode_loop rest [] rev (put out [a]).
Proof.
  intros Hct Hrev Ha. pose proof (ct_bits _ _ Hct a code Ha) as [_ Hbits].
  induction sfx as [|b sfx IH]; intros pre rest out Hcode Hne; [done|].
  assert (is_bit b) as Hb.
  { rewrite <- Hcode in Hbits. apply Forall_app in Hbits as [_ Hbits].
    by apply Forall_cons in Hbits as [? _]. }
  simpl. rewrite (is_bit_not_space b Hb).
  destruct sfx as [|b' sfx].
  - simpl. rewrite Hcode. apply Hrev in Ha. by rewrite Ha.
  - destruct (rev !! (pre ++ [b])) as [a'|] eqn:Hlook.
    + exfalso. apply Hrev in Hlook.
      assert (pre ++ [b] `prefix_of` code) as Hp.
      { exists (b' :: sfx). by rewrite <- app_assoc. }
      pose proof (ct_prefix _ _ Hct a' a _ _ Hlook Ha Hp) as ->.
      rewrite Ha in Hlook. injection Hlook as Heq.
      rewrite <- Hcode in Heq. apply (f_equal length) in Heq.
      rewrite !length_app in Heq. simpl in Heq. lia.
    + apply IH; [|done]. by rewrite <- app_assoc.
Qed.

Lemma decode_loop_payload (input : text) (cm : gmap ascii text)
    (rev : gmap text ascii) :
  code_table_for input cm →
  (∀ a c, rev !! c = Some a ↔ cm !! a = Some c) →
  ∀ (part : text) out,
    (∀ a, a ∈ part → a ∈ input) →
    decode_loop (part ≫= code_of cm) [] rev out = put out part.
Proof.
  intros Hct Hrev. induction part as [|ch part IH]; intros out Hsub.
  - simpl. by rewrite put_nil.
  - rewrite bind_cons. destruct (ct_total _ _ Hct ch) as [code Hcode];
      [apply Hsub; by left|].
    unfold code_of at 1. rewrite Hcode. simpl.
    rewrite (decode_loop_code input cm rev ch code Hct Hrev Hcode code []);
      [|done|by apply (ct_bits _ _ Hct ch)].
    rewrite IH by (intros a Ha; apply Hsub; by right). by rewrite put_put.
Qed.

(** ** Round trip *)

Lemma decode_encode_codes_convert (input : text) (t2 : HuffmanTree) :
  input ≠ [] → newline ∉ input →
  (∀ a code,
     codeMap (buildTree (countCharFrequencies HuffmanTree_init input)) !! a = Some code →
     ∃ v, stoi code = inr v) →
  ∃ t3, decode t2 (written (encode HuffmanTree_init input).2)
        = Returned (t3, {| opened := true; written := input |}).
Proof.
  intros Hne Hnl Hconv. rewrite encode_written by done.
  set (cm := codeMap (buildTree (countCharFrequencies HuffmanTree_init input))) in *.
  pose proof (encode_code_table input Hne) as Hct. fold cm in Hct.
  cbn [written].
  assert (∀ a c, (a, c) ∈ um_items cm ↔ cm !! a = Some c) as Hitems.
  { intros a c. by rewrite um_items_perm, elem_of_map_to_list. }
  assert (Forall record_line (line_of <$> um_items cm)) as Hlines.
  { apply Forall_fmap, Forall_forall. intros [k c] Hkc%Hitems.
    split; [done|]. unfold line_of. simpl.
    intros [Heq|Hin]%elem_of_cons.
    - subst k. apply Hnl. by apply (ct_letters _ _ Hct _ c).
    - destruct (ct_bits _ _ Hct _ _ Hkc) as [_ Hbits].
      rewrite Forall_forall in Hbits.
      by apply (is_bit_not_newline newline (Hbits _ Hin)). }
  unfold decode, reconstructTree.
  set (t0 := {| root := root t2; nodeHeap := nodeHeap t2;
                codeMap := ∅; reverseCodeMap := ∅ |}).
  set (payload := input ≫= code_of cm).
  pose proof (table_loop_lines (line_of <$> um_items cm)
    {| members := t0; local_root := new_CountNode;
       input_rest := table_text (line_of <$> um_items cm) ++ newline :: payload |}
    (newline :: payload) _ Hlines eq_refl (Nat.lt_succ_diag_r _)) as Hl.
  cbn [members local_root input_rest] in Hl.
  destruct (run_records_items (um_items cm) t0 new_CountNode)
    as (t' & lroot' & Hrun & Hrev).
  { intros [k c] Hkc%Hitems. by apply (Hconv k). }
  rewrite Hrun in Hl. rewrite Hl, table_loop_blank.
  cbn [members input_rest]. rewrite Hrev. unfold t0. cbn [reverseCodeMap].
  unfold payload.
  rewrite (decode_loop_payload input cm (enter_reverse ∅ (um_items cm)) Hct);
    [by eexists| |done].
  intros a c. split.
  - intros [Hl'|Hl']%enter_reverse_lookup_1; [by rewrite lookup_empty in Hl'|].
    by apply Hitems.
  - intros Hac. apply enter_reverse_lookup_2; [|right; by apply Hitems].
    intros a' Ha'%Hitems. by apply (ct_prefix _ _ Hct a' a c c).
Qed.

(** X7: [decode] gives back what [encode] was given, for every input
    without a newline, as long as [stoi] converts every code of the table (which
    it does for the codes whose decimal reading fits an [int]: those
    without a ['1'] eleven places or more from their end). *)
Theorem round_trip_when_codes_convert (input : text) (t2 : HuffmanTree) :
  input ≠ [] → newline ∉ input →
  (∀ a code,
     codeMap (buildTree (countCharFrequencies HuffmanTree_init input)) !! a = Some code →
     ∃ v, stoi code = inr v) →
  ∃ t3, decode t2 (written (encode HuffmanTree_init input).2)
        = Returned (t3, {| opened := true; written := input |}).
Proof. apply decode_encode_codes_convert. Qed.

(** ** The codes [stoi] converts *)

Lemma repunit_pow n : (10 * repunit n + 1 = 10 ^ Z.of_nat n + repunit n)%Z.
Proof.
  induction n as [|n IH]; [done|].
  rewrite Nat2Z.inj_succ, Z.pow_succ_r by lia. simpl repunit. lia.
Qed.

Lemma repunit_mono n m : n ≤ m → (repunit n ≤ repunit m)%Z.
Proof.
  induction 1 as [|m _ IH]; [done|]. simpl.
  assert (0 ≤ repunit n)%Z by (clear; induction n; simpl; lia). lia.
Qed.

Lemma read_digits_bits (c : text) : ∀ acc n,
  Forall is_bit c → (0 ≤ acc)%Z →
  ∃ v, read_digits c acc n = (v, n + length c) ∧
       (0 ≤ v ≤ acc * 10 ^ Z.of_nat (length c) + repunit (length c))%Z.
Proof.
  induction c as [|b c IH]; intros acc n Hbits Hacc.
  - exists acc. simpl. rewrite Nat.add_0_r. split; [done|]. lia.
  - apply Forall_cons in Hbits as [Hb Hbits].
    assert (∃ d, digit_value b = Some d ∧ (0 ≤ d ≤ 1)%Z) as (d & Hd & Hd01).
    { destruct Hb as [->| ->]; [exists 0%Z|exists 1%Z]; split; (done || lia). }
    destruct (IH (10 * acc + d)%Z (S n) Hbits) as (v & Hv & Hbound); [lia|].
    exists v. simpl. rewrite Hd, Hv. split; [f_equal; lia|].
    rewrite Nat2Z.inj_succ, Z.pow_succ_r by lia.
    pose proof (repunit_pow (length c)) as Hr.
    assert (0 ≤ 10 ^ Z.of_nat (length c))%Z by (apply Z.pow_nonneg; lia).
    nia.
Qed.

(** a code of at most ten characters is converted *)
Lemma stoi_short_code (c : text) :
  Forall is_bit c → c ≠ [] → length c ≤ 10 → ∃ v, stoi c = inr v.
Proof.
  intros Hbits Hne Hlen. unfold stoi.
  assert (skip_space c = c) as ->.
  { destruct c as [|b c]; [done|]. apply Forall_cons in Hbits as [Hb _].
    simpl. by rewrite (is_bit_not_space b Hb). }
  destruct (read_digits_bits c 0 0 Hbits) as (v & Hv & Hbound); [done|].
  assert (read_sign c = (false, c)) as ->.
  { destruct c as [|b c]; [done|]. apply Forall_cons in Hbits as [Hb _].
    by destruct Hb as [->| ->]. }
  rewrite Hv. destruct c as [|b c]; [done|].
  pose proof (repunit_mono _ _ Hlen) as Hr.
  change (repunit 10) with 1111111111%Z in Hr. cbn [length] in *.
  rewrite decide_True; [by eexists|]. unfold INT_MIN, INT_MAX. lia.
Qed.

(** ** The length of the codes *)

Lemma letter_paths_length p : ∀ pre a c,
  (a, c) ∈ letter_paths p pre → length c ≤ length pre + length (merges p).
Proof.
  induction p as [|n l IHl r IHr|ch n l _ r _]; intros pre a c Hin; simpl in Hin.
  - by apply elem_of_nil in Hin.
  - simpl. rewrite length_app.
    apply elem_of_app in Hin as [Hin|Hin];
      [apply IHl in Hin|apply IHr in Hin];
      rewrite length_app in Hin; simpl in Hin; lia.
  - apply list_elem_of_singleton in Hin. injection Hin as -> ->. lia.
Qed.

Lemma merge_step_merges h :
  1 < pq_size h →
  length (pq_elems (merge_step h) ≫= merges) = S (length (pq_elems h ≫= merges)).
Proof.
  intros Hsize. destruct (pq_elems_merge_step h Hsize) as [Hp Hp'].
  rewrite Hp, Hp', !bind_cons. simpl. rewrite !length_app. lia.
Qed.

Lemma build_loop_merges n : ∀ h,
  1 ≤ pq_size h →
  length (pq_elems (build_loop n h) ≫= merges) + pq_size (build_loop n h)
  = length (pq_elems h ≫= merges) + pq_size h.
Proof.
  induction n as [|n IH]; intros h Hsize; simpl; [done|].
  case_decide as Hbig; [|done].
  assert (S (pq_size (merge_step h)) = pq_size h) as Hs.
  { destruct (pq_elems_merge_step h Hbig) as [Hp Hp'].
    unfold pq_size. by rewrite Hp, Hp'. }
  rewrite IH by lia. rewrite merge_step_merges by done. lia.
Qed.

(** the tree has one plain node less than the heap had nodes (one, for a
    heap of one node) *)
Lemma buildTree_merges t :
  pq_is_empty (nodeHeap t) = false →
  pq_elems (nodeHeap t) ≫= merges = [] →
  length (merges (root (buildTree t))) = Nat.max 1 (pq_size (nodeHeap t) - 1).
Proof.
  intros Hne Hleaves. apply pq_is_empty_false in Hne as Hne'.
  destruct (decide (1 < pq_size (nodeHeap t))) as [Hbig|Hsmall].
  - rewrite buildTree_root_merge by done.
    set (h1 := merge_step (nodeHeap t)).
    assert (S (pq_size h1) = pq_size (nodeHeap t)) as Hs1.
    { destruct (pq_elems_merge_step _ Hbig) as [Hp Hp'].
      unfold pq_size, h1. by rewrite Hp, Hp'. }
    assert (pq_size (build_loop (pq_size h1) h1) = 1) as Hsize.
    { apply build_loop_size; lia. }
    pose proof (build_loop_merges (pq_size h1) h1) as Hm.
    rewrite Hsize, (pq_single _ Hsize) in Hm.
    pose proof (merge_step_merges _ Hbig) as Hm1. fold h1 in Hm1.
    rewrite Hm1, Hleaves in Hm.
    rewrite bind_cons, app_nil_r in Hm. simpl in Hm. lia.
  - assert (∃ r, pq_elems (nodeHeap t) = [r]) as [r Hr].
    { unfold pq_size in Hsmall.
      destruct (pq_elems (nodeHeap t)) as [|r [|??]]; [done|by eexists|].
      simpl in Hsmall. lia. }
    rewrite (buildTree_single t r Hr). unfold pq_size. rewrite Hr in *.
    rewrite bind_cons, app_nil_r in Hleaves. simpl. by rewrite Hleaves.
Qed.

Lemma decode_encode_few_letters (input : text) (t2 : HuffmanTree) :
  input ≠ [] → newline ∉ input →
  size (list_to_set input : gset ascii) ≤ 11 →
  ∃ t3, decode t2 (written (encode HuffmanTree_init input).2)
        = Returned (t3, {| opened := true; written := input |}).
Proof.
  intros Hne Hnl Hfew. apply decode_encode_codes_convert; [done..|].
  intros a c Hac.
  pose proof (encode_code_table input Hne) as Hct.
  destruct (ct_bits _ _ Hct a c Hac) as [Hc Hbits].
  apply stoi_short_code; [done..|].
  set (t0 := countCharFrequencies HuffmanTree_init input) in *.
  pose proof (countCharFrequencies_heap input Hne) as Hheap. fold t0 in Hheap.
  assert (pq_is_empty (nodeHeap t0) = false) as Hpe.
  { apply pq_is_empty_false. intros Hnil. rewrite Hnil in Hheap.
    apply Permutation_nil_l in Hheap. symmetry in Hheap.
    apply fmap_nil_inv in Hheap.
    apply map_to_list_empty_iff in Hheap. by apply count_chars_nonempty in Hheap. }
  assert (pq_elems (nodeHeap t0) ≫= merges = []) as Hnom.
  { apply Permutation_nil_r. rewrite Hheap. by rewrite leaves_no_merges. }
  pose proof (buildTree_merges t0 Hpe Hnom) as Hlen.
  pose proof (countCharFrequencies_heap_size input Hne) as Hsize. fold t0 in Hsize.
  rewrite <- (size_dom (D := gset ascii)) in Hsize.
  rewrite count_chars_dom, dom_empty_L, (left_id_L ∅ (∪)) in Hsize.
  apply codeMap_letter_paths in Hac; [|done].
  apply letter_paths_length in Hac. simpl in Hac. lia.
Qed.

(** X8: [decode] gives back what [encode] was given, for every input
    without a newline that has at most eleven different characters: its
    codes are at most ten characters long. *)
Theorem round_trip_few_letters (input : text) (t2 : HuffmanTree) :
  input ≠ [] → newline ∉ input →
  size (list_to_set input : gset ascii) ≤ 11 →
  ∃ t3, decode t2 (written (encode HuffmanTree_init input).2)
        = Returned (t3, {| opened := true; written := input |}).
Proof. apply decode_encode_few_letters. Qed.

(** * Further properties *)

(** ** [countCharFrequencies] and [buildTree] *)

Lemma frequency_nonneg a (input : text) : (0 ≤ frequency a input)%Z.
Proof. induction input as [|c input IH]; simpl; [done|]. case_decide; lia. Qed.

Lemma count_chars_frequency (input : text) :
  (Z.of_nat (length input) ≤ INT_MAX)%Z →
  ∀ a, count_chars input ∅ !! a =
       if decide (frequency a input = 0%Z) then None else Some (frequency a input).
Proof.
  intros Hlen a. destruct (count_chars_spec input ∅) as (_ & _ & Hcc).
  { intros k v. by rewrite lookup_empty. }
  { rewrite sum_values_empty. lia. }
  by rewrite Hcc, lookup_empty.
Qed.

(** X1: for an input that is not empty and whose length an [int] can hold,
    [countCharFrequencies] puts on the (empty) heap one letter node for
    every character that occurs in the input, with the number of its
    occurrences as count, and nothing else. *)
Theorem countCharFrequencies_counts (input : text) :
  input ≠ [] → (Z.of_nat (length input) ≤ INT_MAX)%Z →
  ∃ cc : gmap ascii Z,
    (∀ a, cc !! a = if decide (frequency a input = 0%Z) then None
                    else Some (frequency a input)) ∧
    pq_elems (nodeHeap (countCharFrequencies HuffmanTree_init input))
    ≡ₚ (λ e, new_HuffmanTreeNode e.1 e.2) <$> map_to_list cc.
Proof.
  intros Hne Hlen. exists (count_chars input ∅).
  split; [by apply count_chars_frequency|]. by apply countCharFrequencies_heap.
Qed.

Lemma buildTree_heap t :
  pq_is_empty (nodeHeap t) = false →
  ∃ h, pq_size h = 1 ∧ nodeHeap (buildTree t) = pq_pop h.
Proof.
  intros Hne. apply pq_is_empty_false in Hne as Hne'. unfold buildTree. rewrite Hne.
  pose proof (pq_size_pop _ Hne') as Hs.
  destruct (pq_is_empty (pq_pop (nodeHeap t))) eqn:He; eexists; (split; [|reflexivity]).
  - apply pq_is_empty_true in He. apply build_loop_size;
      rewrite pq_size_push; unfold pq_size; rewrite He; simpl; lia.
  - apply pq_is_empty_false in He. pose proof (pq_size_pop _ He) as Hs'.
    apply build_loop_size; rewrite pq_size_push; lia.
Qed.

Lemma buildTree_heap_empty t : pq_elems (nodeHeap (buildTree t)) = [].
Proof.
  destruct (pq_is_empty (nodeHeap t)) eqn:He.
  - rewrite buildTree_empty_heap by done. by apply pq_is_empty_true.
  - destruct (buildTree_heap t He) as (h & Hsize & ->).
    assert (pq_elems h ≠ []) as Hne by (apply pq_size_pos; lia).
    rewrite (pq_size_pop h Hne) in Hsize. unfold pq_size in Hsize.
    by destruct (pq_elems (pq_pop h)).
Qed.

(** X2: [buildTree] depletes the heap: whatever nodes it finds there, it
    leaves the heap empty. *)
Theorem buildTree_depletes_heap t : pq_elems (nodeHeap (buildTree t)) = [].
Proof. apply buildTree_heap_empty. Qed.

(** X3: the tree [buildTree] makes of an input (not empty, of a length an
    [int] can hold) has one letter node for every character of the input,
    with its frequency, and no other letter node; the count of its root is
    the length of the input. *)
Theorem buildTree_letters_and_total (input : text) :
  input ≠ [] → (Z.of_nat (length input) ≤ INT_MAX)%Z →
  let T := root (buildTree (countCharFrequencies HuffmanTree_init input)) in
  count T = Z.of_nat (length input) ∧
  NoDup (leaves T).*1 ∧
  ∀ a w, (a, w) ∈ leaves T ↔ w = frequency a input ∧ (0 < w)%Z.
Proof.
  intros Hne Hlen T.
  destruct (encode_tree_leaves input Hne) as [_ Hleaves]. fold T in Hleaves.
  pose proof (count_chars_frequency input Hlen) as Hcc.
  split; [|split].
  - set (t0 := countCharFrequencies HuffmanTree_init input) in *.
    pose proof (countCharFrequencies_heap_size input Hne) as Hsize. fold t0 in Hsize.
    destruct (decide (1 < pq_size (nodeHeap t0))) as [Hbig|Hsmall].
    + pose proof (countCharFrequencies_heap_inv input Hne Hlen) as Hinv.
      fold t0 in Hinv.
      pose proof (buildTree_root_inv _ _ t0 Hlen Hinv Hbig) as [_ Ht _ _ _].
      fold T in Ht. unfold total_count in Ht. simpl in Ht. lia.
    + assert (size (count_chars input ∅) = 1) as Hone.
      { pose proof (count_chars_nonempty input Hne) as Hn.
        apply map_size_non_empty_iff in Hn. lia. }
      destruct (map_size_one _ Hone) as (k & v & Hkv).
      destruct (single_letter_tree input k v Hkv) as [Hroot _].
      fold t0 T in Hroot. rewrite Hroot. simpl.
      destruct (count_chars_spec input ∅) as (_ & Hsum & _).
      { intros ??. by rewrite lookup_empty. }
      { rewrite sum_values_empty. lia. }
      rewrite Hkv, sum_values_empty in Hsum. unfold sum_values in Hsum.
      rewrite map_to_list_singleton in Hsum. simpl in Hsum. lia.
  - rewrite Hleaves. apply NoDup_fst_map_to_list.
  - intros a w. rewrite Hleaves, elem_of_map_to_list, Hcc.
    pose proof (frequency_nonneg a input). case_decide; split.
    + done.
    + intros [-> ?]. lia.
    + intros [= <-]. split; [done|lia].
    + by intros [-> _].
Qed.

(** ** The code table and what [encode] writes *)

(** X4: the code table [buildTree] derives from an input that is not
    empty gives a code to every character of the input and to no other
    character; every code is a non-empty string of ['0'] and ['1'], and
    two different characters have different codes. *)
Theorem code_table_of_input (input : text) :
  input ≠ [] →
  let cm := codeMap (buildTree (countCharFrequencies HuffmanTree_init input)) in
  (∀ a, a ∈ input ↔ is_Some (cm !! a)) ∧
  (∀ a c, cm !! a = Some c → c ≠ [] ∧ Forall is_bit c) ∧
  (∀ a1 a2 c, cm !! a1 = Some c → cm !! a2 = Some c → a1 = a2).
Proof.
  intros Hne cm. destruct (encode_code_table input Hne) as [Htot Hlet Hbits Hpre].
  fold cm in Htot, Hlet, Hbits, Hpre. split; [|split].
  - intros a. split; [apply Htot|]. intros [c Hc]. by apply (Hlet a c).
  - done.
  - intros a1 a2 c H1 H2. by apply (Hpre a1 a2 c c).
Qed.

Lemma code_length_le (input : text) a c :
  input ≠ [] →
  codeMap (buildTree (countCharFrequencies HuffmanTree_init input)) !! a = Some c →
  length c ≤ Nat.max 1 (size (list_to_set input : gset ascii) - 1).
Proof.
  intros Hne Hac.
  set (t0 := countCharFrequencies HuffmanTree_init input) in *.
  pose proof (countCharFrequencies_heap input Hne) as Hheap. fold t0 in Hheap.
  assert (pq_is_empty (nodeHeap t0) = false) as Hpe.
  { apply pq_is_empty_false. intros Hnil. rewrite Hnil in Hheap.
    apply Permutation_nil_l in Hheap. symmetry in Hheap.
    apply fmap_nil_inv in Hheap.
    apply map_to_list_empty_iff in Hheap. by apply count_chars_nonempty in Hheap. }
  assert (pq_elems (nodeHeap t0) ≫= merges = []) as Hnom.
  { apply Permutation_nil_r. rewrite Hheap. by rewrite leaves_no_merges. }
  pose proof (buildTree_merges t0 Hpe Hnom) as Hlen.
  pose proof (countCharFrequencies_heap_size input Hne) as Hsize. fold t0 in Hsize.
  rewrite <- (size_dom (D := gset ascii)) in Hsize.
  rewrite count_chars_dom, dom_empty_L, (left_id_L ∅ (∪)) in Hsize.
  apply codeMap_letter_paths in Hac; [|done].
  apply letter_paths_length in Hac. simpl in Hac. lia.
Qed.

(** X5: a code is never longer than the number of different characters
    of the input less one (than one, when the input repeats one
    character). *)
Theorem code_length_bound (input : text) a c :
  input ≠ [] →
  codeMap (buildTree (countCharFrequencies HuffmanTree_init input)) !! a = Some c →
  length c ≤ Nat.max 1 (size (list_to_set input : gset ascii) - 1).
Proof. apply code_length_le. Qed.

(** X6: for an input that is not empty, [encode] writes the table, one
    line per entry of the code table made of the character and its code,
    then an empty line, then the codes of the characters of the input one
    after the other; it leaves the code table in the object. *)
Theorem encode_output_format (input : text) :
  input ≠ [] →
  let cm := codeMap (buildTree (countCharFrequencies HuffmanTree_init input)) in
  (encode HuffmanTree_init input).2 =
    {| opened := true;
       written := table_text (line_of <$> um_items cm)
                  ++ newline :: (input ≫= code_of cm) |} ∧
  codeMap (encode HuffmanTree_init input).1 = cm.
Proof.
  intros Hne cm. split; [by apply encode_written|].
  unfold encode. fold cm.
  rewrite write_payload_written by apply (ct_total _ _ (encode_code_table input Hne)).
  done.
Qed.

(** ** [decode] on what [encode] wrote, and on more *)

Lemma stoi_code_not_invalid (c : text) :
  Forall is_bit c → c ≠ [] → stoi c ≠ inl invalid_argument.
Proof.
  intros Hbits Hne. unfold stoi.
  assert (skip_space c = c) as ->.
  { destruct c as [|b c]; [done|]. apply Forall_cons in Hbits as [Hb _].
    simpl. by rewrite (is_bit_not_space b Hb). }
  assert (read_sign c = (false, c)) as ->.
  { destruct c as [|b c]; [done|]. apply Forall_cons in Hbits as [Hb _].
    by destruct Hb as [->| ->]. }
  destruct (read_digits_bits c 0 0 Hbits) as (v & Hv & _); [done|].
  rewrite Hv. destruct c as [|b c]; [done|]. simpl. by case_decide.
Qed.

Lemma run_records_throw items : ∀ t lroot,
  (∀ e : ascii * text, e ∈ items → stoi e.2 ≠ inl invalid_argument) →
  (∃ e : ascii * text, e ∈ items ∧ stoi e.2 = inl out_of_range) →
  ∃ t' lroot', run_records (line_of <$> items) t lroot
               = Thrown out_of_range (t', lroot').
Proof.
  induction items as [|[k c] items IH]; intros t lroot Hinv [e [He Hthrow]];
    [by apply elem_of_nil in He|].
  simpl. unfold table_record.
  destruct (stoi c) as [x|v] eqn:Hc.
  - destruct x; [|by eexists _, _].
    exfalso. apply (Hinv (k, c)); [by left|done].
  - apply IH.
    + intros e' He'. apply Hinv. by right.
    + apply elem_of_cons in He as [->|He]; [simpl in Hthrow; congruence|eauto].
Qed.

Lemma decode_encode_throws (input : text) (t2 : HuffmanTree) a code :
  input ≠ [] → newline ∉ input →
  codeMap (buildTree (countCharFrequencies HuffmanTree_init input)) !! a = Some code →
  stoi code = inl out_of_range →
  ∃ t3, decode t2 (written (encode HuffmanTree_init input).2)
        = Thrown out_of_range (t3, ofstream_open).
Proof.
  intros Hne Hnl Hac Hthrow. rewrite encode_written by done.
  set (cm := codeMap (buildTree (countCharFrequencies HuffmanTree_init input))) in *.
  pose proof (encode_code_table input Hne) as Hct. fold cm in Hct.
  cbn [written].
  assert (∀ a c, (a, c) ∈ um_items cm ↔ cm !! a = Some c) as Hitems.
  { intros a' c. by rewrite um_items_perm, elem_of_map_to_list. }
  assert (Forall record_line (line_of <$> um_items cm)) as Hlines.
  { apply Forall_fmap, Forall_forall. intros [k c] Hkc%Hitems.
    split; [done|]. unfold line_of. simpl.
    intros [Heq|Hin]%elem_of_cons.
    - subst k. apply Hnl. by apply (ct_letters _ _ Hct _ c).
    - destruct (ct_bits _ _ Hct _ _ Hkc) as [_ Hbits].
      rewrite Forall_forall in Hbits.
      by apply (is_bit_not_newline newline (Hbits _ Hin)). }
  unfold decode, reconstructTree.
  set (t0 := {| root := root t2; nodeHeap := nodeHeap t2;
                codeMap := ∅; reverseCodeMap := ∅ |}).
  set (payload := input ≫= code_of cm).
  pose proof (table_loop_lines (line_of <$> um_items cm)
    {| members := t0; local_root := new_CountNode;
       input_rest := table_text (line_of <$> um_items cm) ++ newline :: payload |}
    (newline :: payload) _ Hlines eq_refl (Nat.lt_succ_diag_r _)) as Hl.
  cbn [members local_root input_rest] in Hl.
  destruct (run_records_throw (um_items cm) t0 new_CountNode)
    as (t' & lroot' & Hrun).
  { intros [k c] Hkc%Hitems. simpl.
    destruct (ct_bits _ _ Hct _ _ Hkc). by apply stoi_code_not_invalid. }
  { exists (a, code). split; [by apply Hitems|done]. }
  rewrite Hrun in Hl. destruct Hl as [rest ->]. by eexists.
Qed.

(** X9: when the code table of the input has a code that [stoi] does not
    convert (its decimal reading is above [INT_MAX]), [decode] of what
    [encode] wrote ends in an uncaught [out_of_range] and writes nothing. *)
Theorem decode_encode_long_code (input : text) (t2 : HuffmanTree) a code :
  input ≠ [] → newline ∉ input →
  codeMap (buildTree (countCharFrequencies HuffmanTree_init input)) !! a = Some code →
  stoi code = inl out_of_range →
  ∃ t3, decode t2 (written (encode HuffmanTree_init input).2)
        = Thrown out_of_range (t3, ofstream_open).
Proof. apply decode_encode_throws. Qed.

(** what [decode] does with a file that starts with what [encode] wrote *)
Lemma decode_encoded_then (input : text) (t2 : HuffmanTree) (more : text) :
  input ≠ [] → newline ∉ input →
  (∀ a code,
     codeMap (buildTree (countCharFrequencies HuffmanTree_init input)) !! a = Some code →
     ∃ v, stoi code = inr v) →
  ∃ t3 (rev : gmap text ascii),
    (∀ a c, rev !! c = Some a ↔
       codeMap (buildTree (countCharFrequencies HuffmanTree_init input)) !! a = Some c) ∧
    decode t2 (written (encode HuffmanTree_init input).2 ++ more)
    = Returned (t3, decode_loop more [] rev {| opened := true; written := input |}).
Proof.
  intros Hne Hnl Hconv. rewrite encode_written by done.
  set (cm := codeMap (buildTree (countCharFrequencies HuffmanTree_init input))) in *.
  pose proof (encode_code_table input Hne) as Hct. fold cm in Hct.
  cbn [written].
  assert (∀ a c, (a, c) ∈ um_items cm ↔ cm !! a = Some c) as Hitems.
  { intros a c. by rewrite um_items_perm, elem_of_map_to_list. }
  assert (Forall record_line (line_of <$> um_items cm)) as Hlines.
  { apply Forall_fmap, Forall_forall. intros [k c] Hkc%Hitems.
    split; [done|]. unfold line_of. simpl.
    intros [Heq|Hin]%elem_of_cons.
    - subst k. apply Hnl. by apply (ct_letters _ _ Hct _ c).
    - destruct (ct_bits _ _ Hct _ _ Hkc) as [_ Hbits].
      rewrite Forall_forall in Hbits.
      by apply (is_bit_not_newline newline (Hbits _ Hin)). }
  set (payload := (input ≫= code_of cm) ++ more).
  assert ((table_text (line_of <$> um_items cm) ++ newline :: input ≫= code_of cm)
            ++ more
          = table_text (line_of <$> um_items cm) ++ newline :: payload) as ->
    by by rewrite <- app_assoc.
  unfold decode, reconstructTree.
  set (t0 := {| root := root t2; nodeHeap := nodeHeap t2;
                codeMap := ∅; reverseCodeMap := ∅ |}).
  pose proof (table_loop_lines (line_of <$> um_items cm)
    {| members := t0; local_root := new_CountNode;
       input_rest := table_text (line_of <$> um_items cm) ++ newline :: payload |}
    (newline :: payload) _ Hlines eq_refl (Nat.lt_succ_diag_r _)) as Hl.
  cbn [members local_root input_rest] in Hl.
  destruct (run_records_items (um_items cm) t0 new_CountNode)
    as (t' & lroot' & Hrun & Hrev).
  { intros [k c] Hkc%Hitems. by apply (Hconv k). }
  rewrite Hrun in Hl. rewrite Hl, table_loop_blank.
  cbn [members input_rest]. rewrite Hrev. unfold t0. cbn [reverseCodeMap].
  assert (∀ a c, enter_reverse ∅ (um_items cm) !! c = Some a ↔ cm !! a = Some c)
    as Hinverse.
  { intros a c. split.
    - intros [Hl'|Hl']%enter_reverse_lookup_1; [by rewrite lookup_empty in Hl'|].
      by apply Hitems.
    - intros Hac. apply enter_reverse_lookup_2; [|right; by apply Hitems].
      intros a' Ha'%Hitems. by apply (ct_prefix _ _ Hct a' a c c). }
  exists t', (enter_reverse ∅ (um_items cm)). split; [done|].
  f_equal. f_equal. unfold payload. clear Hl Hrun Hrev.
  assert (∀ (part : text) out, (∀ a, a ∈ part → a ∈ input) →
            decode_loop ((part ≫= code_of cm) ++ more) []
              (enter_reverse ∅ (um_items cm)) out
            = decode_loop more [] (enter_reverse ∅ (um_items cm)) (put out part))
    as Hparts.
  { induction part as [|ch part IH]; intros out Hsub.
    - simpl. by rewrite put_nil.
    - rewrite bind_cons. destruct (ct_total _ _ Hct ch) as [code Hcode];
        [apply Hsub; by left|].
      unfold code_of at 1. rewrite Hcode. simpl. rewrite <- app_assoc.
      rewrite (decode_loop_code input cm _ ch code Hct Hinverse Hcode code []);
        [|done|by apply (ct_bits _ _ Hct ch)].
      rewrite IH by (intros a Ha; apply Hsub; by right). by rewrite put_put. }
  by rewrite Hparts.
Qed.

(** the characters of an unfinished code bring nothing out *)
Lemma decode_loop_unfinished (input : text) (cm : gmap ascii text)
    (rev : gmap text ascii) a code :
  code_table_for input cm →
  (∀ a c, rev !! c = Some a ↔ cm !! a = Some c) →
  cm !! a = Some code →
  ∀ junk acc missing out,
    acc ++ junk ++ missing = code → missing ≠ [] →
    decode_loop junk acc rev out = out.
Proof.
  intros Hct Hrev Ha. pose proof (ct_bits _ _ Hct a code Ha) as [_ Hbits].
  induction junk as [|b junk IH]; intros acc missing out Hcode Hmiss; [done|].
  assert (is_bit b) as Hb.
  { rewrite <- Hcode in Hbits. apply Forall_app in Hbits as [_ Hbits].
    by apply Forall_cons in Hbits as [? _]. }
  simpl. rewrite (is_bit_not_space b Hb).
  destruct (rev !! (acc ++ [b])) as [a'|] eqn:Hlook.
  - exfalso. apply Hrev in Hlook.
    assert (acc ++ [b] `prefix_of` code) as Hp.
    { exists (junk ++ missing). rewrite <- Hcode, <- app_assoc. done. }
    pose proof (ct_prefix _ _ Hct a' a _ _ Hlook Ha Hp) as ->.
    rewrite Ha in Hlook. injection Hlook as Heq.
    rewrite <- Hcode in Heq. apply (f_equal length) in Heq.
    rewrite !length_app in Heq. simpl in Heq.
    destruct missing; [done|]. simpl in Heq. lia.
  - apply (IH _ missing); [|done]. by rewrite <- app_assoc.
Qed.

(** X10: characters at the end of the payload that do not complete a code
    are dropped without notice: when what [encode] wrote is followed by
    the beginning of a code, short of at least one character, [decode]
    writes the input and nothing more. *)
Theorem decode_drops_unfinished_code (input : text) (t2 : HuffmanTree)
    a code (junk missing : text) :
  input ≠ [] → newline ∉ input →
  (∀ a code,
     codeMap (buildTree (countCharFrequencies HuffmanTree_init input)) !! a = Some code →
     ∃ v, stoi code = inr v) →
  codeMap (buildTree (countCharFrequencies HuffmanTree_init input)) !! a = Some code →
  junk ++ missing = code → missing ≠ [] →
  ∃ t3, decode t2 (written (encode HuffmanTree_init input).2 ++ junk)
        = Returned (t3, {| opened := true; written := input |}).
Proof.
  intros Hne Hnl Hconv Hac Hcode Hmiss.
  destruct (decode_encoded_then input t2 junk Hne Hnl Hconv) as (t3 & rev & Hrev & ->).
  exists t3. f_equal. f_equal.
  by apply (decode_loop_unfinished input _ rev a code
              (encode_code_table input Hne) Hrev Hac junk [] missing).
Qed.

(** ** Bounds on what [decode] writes *)

Lemma decode_loop_length (input : text) : ∀ binary (rev : gmap text ascii) out,
  length (written (decode_loop input binary rev out))
  ≤ length (written out) + length input.
Proof.
  induction input as [|ch input IH]; intros binary rev out; simpl; [lia|].
  destruct (isspace ch).
  - specialize (IH binary rev out). lia.
  - destruct (rev !! (binary ++ [ch])).
    + specialize (IH [] rev (put out [a])).
      change (written (put out [a])) with (written out ++ [a]) in IH.
      rewrite length_app in IH. simpl in IH. lia.
    + specialize (IH (binary ++ [ch]) rev out). lia.
Qed.

Lemma table_loop_rest_length fuel : ∀ (r r' : reconstruction),
  table_loop fuel r = Returned r' → length (input_rest r') ≤ length (input_rest r).
Proof.
  induction fuel as [|fuel IH]; intros r r'; simpl; [done|].
  destruct (getline (input_rest r)) as [[line rest]|] eqn:Hg; [|by intros [= <-]].
  apply getline_length in Hg.
  destruct line as [|ch s]; [intros [= <-]; simpl; lia|].
  destruct (table_record _ _ _ _) as [[t' lr']|e [t' lr']|]; [|done..].
  intros Hr. apply IH in Hr. simpl in Hr. lia.
Qed.

(** X11: whatever the file, [decode] writes at most as many characters as
    the file has: every character it writes uses up at least one
    character of the payload. *)
Theorem decode_output_length t file t' out :
  decode t file = Returned (t', out) →
  opened out = true ∧ length (written out) ≤ length file.
Proof.
  unfold decode, reconstructTree.
  destruct (table_loop _ _) as [r| |] eqn:Hr; [|done..]. intros [= <- <-].
  apply table_loop_rest_length in Hr. simpl in Hr.
  pose proof (decode_loop_length (input_rest r) [] (reverseCodeMap (members r))
                ofstream_open) as Hlen. simpl in Hlen.
  split; [|lia].
  clear. generalize (@nil ascii) as binary.
  generalize ofstream_open, (eq_refl : opened ofstream_open = true).
  induction (input_rest r) as [|ch input IH]; intros out Hout binary; simpl; [done|].
  destruct (isspace ch); [by apply IH|].
  destruct (_ !! _); by apply IH.
Qed.

(** ** The maps and the tree of [reconstructTree] *)

Lemma place_letter_not_null n : ∀ binary ch current,
  current ≠ nullptr → place_letter n binary ch current ≠ nullptr.
Proof.
  destruct n; intros binary ch current Hc; simpl; case_decide;
    by destruct current.
Qed.

Lemma run_records_maps items : ∀ t lroot,
  (∀ e : ascii * text, e ∈ items → ∃ v, stoi e.2 = inr v) →
  ∃ t' lroot',
    run_records (line_of <$> items) t lroot = Returned (t', lroot') ∧
    codeMap t' = enter_codes (codeMap t) items ∧
    reverseCodeMap t' = enter_reverse (reverseCodeMap t) items ∧
    (lroot ≠ nullptr → lroot' ≠ nullptr).
Proof.
  induction items as [|[k c] items IH]; intros t lroot Hconv;
    [by eexists _, _|].
  destruct (Hconv (k, c)) as [v Hv]; [by left|]. simpl in Hv.
  simpl. unfold table_record. rewrite Hv.
  match goal with |- context [run_records _ ?t1 ?lr1] =>
    destruct (IH t1 lr1) as (t' & lroot' & Hrun & Hcm & Hrev & Hnn) end.
  { intros e He. apply Hconv. by right. }
  exists t', lroot'. split; [done|]. split; [by rewrite Hcm|].
  split; [by rewrite Hrev|].
  intros Hlr. by apply Hnn, place_letter_not_null.
Qed.

(** X12: for a table whose records have different letters and different
    codes, all converted by [stoi], [reconstructTree] returns at the
    payload with two maps that hold the records and nothing else: the
    letter of a record leads to its code and its code back to the
    letter. *)
Theorem reconstructTree_maps t (items : list (ascii * text)) (payload : text) :
  Forall record_line (line_of <$> items) →
  (∀ e : ascii * text, e ∈ items → ∃ v, stoi e.2 = inr v) →
  NoDup items.*1 → NoDup items.*2 →
  ∃ r,
    reconstructTree t (table_text (line_of <$> items) ++ newline :: payload)
    = Returned r ∧
    input_rest r = payload ∧
    ∀ a c, (codeMap (members r) !! a = Some c ↔ (a, c) ∈ items) ∧
           (reverseCodeMap (members r) !! c = Some a ↔ (a, c) ∈ items).
Proof.
  intros Hlines Hconv Hnd1 Hnd2. unfold reconstructTree.
  set (t0 := {| root := root t; nodeHeap := nodeHeap t;
                codeMap := ∅; reverseCodeMap := ∅ |}).
  pose proof (table_loop_lines (line_of <$> items)
    {| members := t0; local_root := new_CountNode;
       input_rest := table_text (line_of <$> items) ++ newline :: payload |}
    (newline :: payload) _ Hlines eq_refl (Nat.lt_succ_diag_r _)) as Hl.
  cbn [members local_root input_rest] in Hl.
  destruct (run_records_maps items t0 new_CountNode Hconv)
    as (t' & lroot' & Hrun & Hcm & Hrev & _).
  rewrite Hrun in Hl. rewrite Hl, table_loop_blank.
  eexists. split; [done|]. split; [done|]. cbn [members].
  rewrite Hcm, Hrev. unfold t0. cbn [codeMap reverseCodeMap].
  intros a c. split; split.
  - intros [Ha|Ha]%enter_codes_lookup; [by rewrite lookup_empty in Ha|done].
  - by apply enter_codes_lookup_2.
  - intros [Ha|Ha]%enter_reverse_lookup_1; [by rewrite lookup_empty in Ha|done].
  - intros Hac. apply enter_reverse_lookup_2; [|by right].
    intros a' Ha'. clear -Hnd2 Hac Ha'.
    induction items as [|[k x] items IH]; [by apply elem_of_nil in Hac|].
    simpl in Hnd2. apply NoDup_cons in Hnd2 as [Hx Hnd2].
    apply elem_of_cons in Hac as [Hac|Hac];
      apply elem_of_cons in Ha' as [Ha'|Ha']; simplify_eq;
      [done| | |by apply IH].
    + exfalso. apply Hx. apply list_elem_of_fmap. by exists (a', x).
    + exfalso. apply Hx. apply list_elem_of_fmap. by exists (a, x).
Qed.





Lemma place_letter_child n : ∀ binary ch current,
  current ≠ nullptr →
  is_null (left_of (place_letter n binary ch current)) = false ∨
  is_null (right_of (place_letter n binary ch current)) = false.
Proof.
  assert (∀ q, q ≠ nullptr → is_null q = false) as Hnull by (by intros []).
  destruct n as [|n]; intros binary ch current Hc; simpl; case_decide.
  - right. by destruct current.
  - left. by destruct current.
  - right. destruct current as [|c l r|k c l r]; [done|..]; simpl;
      apply Hnull, place_letter_not_null; by destruct r.
  - left. destruct current as [|c l r|k c l r]; [done|..]; simpl;
      apply Hnull, place_letter_not_null; by destruct l.
Qed.

Lemma run_records_child lines : ∀ t lroot t' lroot',
  Forall record_line lines → lroot ≠ nullptr →
  lines ≠ [] ∨ is_null (left_of lroot) = false ∨ is_null (right_of lroot) = false →
  run_records lines t lroot = Returned (t', lroot') →
  is_null (left_of lroot') = false ∨ is_null (right_of lroot') = false.
Proof.
  induction lines as [|l lines IH]; intros t lroot t' lroot' Hl Hnn Hc Hrun.
  - simpl in Hrun. injection Hrun as <- <-. by destruct Hc.
  - apply Forall_cons in Hl as [[Hne _] Hl]. destruct l as [|ch s]; [done|].
    simpl in Hrun. unfold table_record in Hrun.
    destruct (stoi s) as [e|v]; [done|].
    eapply IH; [done| | |exact Hrun].
    + by apply place_letter_not_null.
    + right. by apply place_letter_child.
Qed.

(** C4 (as amended): when the table holds a record without a code,
    [reconstructTree], and with it [decode], does not return: it ends in
    an exception of [stoi] that nothing catches, and not a character has
    been written to the output file (which has been created).  Nothing
    is validated beforehand.  When the codes of the records before it
    convert, the exception is [invalid_argument], raised at that record
    after the record has been entered in [codeMap] and [reverseCodeMap],
    and the records before it have been placed in the tree: the tree at
    the exception is the tree [reconstructTree] returns with for the
    table of those records alone (the maps are the maps of that table
    with the record added), and it is no longer the empty root when
    there is such a record. *)
Theorem decode_record_without_code t lines ch tail :
  Forall record_line lines → ch ≠ newline →
  (tail = [] ∨ ∃ post, tail = newline :: post) →
  ∃ e r,
    reconstructTree t (table_text lines ++ ch :: tail) = Thrown e r ∧
    decode t (table_text lines ++ ch :: tail) = Thrown e (members r, ofstream_open) ∧
    (codes_convert lines →
       e = invalid_argument ∧
       codeMap (members r) !! ch = Some [] ∧
       reverseCodeMap (members r) !! [] = Some ch ∧
       (lines ≠ [] → local_root r ≠ new_CountNode) ∧
       ∀ payload, ∃ r0,
         reconstructTree t (table_text lines ++ newline :: payload) = Returned r0 ∧
         local_root r = local_root r0 ∧
         codeMap (members r) = <[ch := []]> (codeMap (members r0)) ∧
         reverseCodeMap (members r) = <[[] := ch]> (reverseCodeMap (members r0))).
Proof.
  intros Hlines Hch Htail.
  assert (∃ e r, reconstructTree t (table_text lines ++ ch :: tail) = Thrown e r ∧
            (codes_convert lines →
               e = invalid_argument ∧
               codeMap (members r) !! ch = Some [] ∧
               reverseCodeMap (members r) !! [] = Some ch ∧
               (lines ≠ [] → local_root r ≠ new_CountNode) ∧
               ∀ payload, ∃ r0,
                 reconstructTree t (table_text lines ++ newline :: payload)
                 = Returned r0 ∧
                 local_root r = local_root r0 ∧
                 codeMap (members r) = <[ch := []]> (codeMap (members r0)) ∧
                 reverseCodeMap (members r)
                 = <[[] := ch]> (reverseCodeMap (members r0))))
    as (e & r & Hrec & Hstate).
  { unfold reconstructTree at 1.
    set (t0 := {| root := root t; nodeHeap := nodeHeap t;
                  codeMap := ∅; reverseCodeMap := ∅ |}).
    pose proof (table_loop_lines lines
      {| members := t0; local_root := new_CountNode;
         input_rest := table_text lines ++ ch :: tail |}
      (ch :: tail) _ Hlines eq_refl (Nat.lt_succ_diag_r _)) as H1.
    cbn [members local_root input_rest] in H1.
    destruct (run_records lines t0 new_CountNode) as [[t' lr']|e [t' lr']|] eqn:Hrun;
      [| |done].
    - rewrite H1. cbn [table_loop input_rest].
      change (ch :: tail) with ([ch] ++ tail).
      rewrite getline_record;
        [|split; [done|intros ?%list_elem_of_singleton; congruence]|done].
      unfold table_record. rewrite stoi_empty. cbn [members local_root].
      eexists _, _. split; [done|]. intros _.
      cbn [members local_root codeMap reverseCodeMap].
      rewrite !lookup_insert_eq. do 3 (split; [done|]). split.
      + intros Hne Heq.
        destruct (run_records_child lines t0 new_CountNode t' lr' Hlines)
          as [Hc|Hc]; [done|by left|done|..]; by rewrite Heq in Hc.
      + intros payload.
        pose proof (table_loop_lines lines
          {| members := t0; local_root := new_CountNode;
             input_rest := table_text lines ++ newline :: payload |}
          (newline :: payload) _ Hlines eq_refl (Nat.lt_succ_diag_r _)) as H2.
        cbn [members local_root input_rest] in H2. rewrite Hrun in H2.
        unfold reconstructTree. fold t0. rewrite H2, table_loop_blank.
        by eexists.
    - destruct H1 as [rest ->]. eexists _, _. split; [done|].
      intros Hc. destruct (run_records_convert lines t0 new_CountNode Hlines Hc)
        as (? & ? & Heq). congruence. }
  exists e, r. split; [done|]. split; [|done].
  unfold decode. by rewrite Hrec.
Qed.


Lemma table_loop_root fuel : ∀ (r : reconstruction) T,
  outcome_map (λ r', root (members r')) (table_loop fuel r) = Returned T ∨
  (∃ e, outcome_map (λ r', root (members r')) (table_loop fuel r) = Thrown e T) →
  T = root (members r).
Proof.
  induction fuel as [|fuel IH]; intros r T; simpl.
  { intros [?|[? ?]]; done. }
  destruct (getline (input_rest r)) as [[[|ch s] rest]|].
  - simpl. intros [[= <-]|[? ?]]; done.
  - unfold table_record. destruct (stoi s) as [e|v].
    + simpl. intros [?|[? [= _ <-]]]; done.
    + intros H. by apply IH in H.
  - simpl. intros [[= <-]|[? ?]]; done.
Qed.

(** X14: [decode] does not keep the tree it reconstructs: the tree is
    built in a variable of [reconstructTree] that hides the member
    [root], and in an object whose [root] is null the member is still
    null when [decode] returns or throws. *)
Theorem decode_keeps_no_tree t file t' out :
  root t = nullptr →
  decode t file = Returned (t', out) ∨ (∃ e, decode t file = Thrown e (t', out)) →
  root t' = nullptr.
Proof.
  intros Hroot Hd. rewrite <- Hroot.
  change (root t) with (root (members
    {| members := {| root := root t; nodeHeap := nodeHeap t;
                     codeMap := ∅; reverseCodeMap := ∅ |};
       local_root := new_CountNode; input_rest := file |})).
  apply (table_loop_root (S (length file))).
  unfold decode, reconstructTree in Hd.
  destruct (table_loop _ _) as [r|e r|]; simpl.
  - destruct Hd as [[= <- _]|[? ?]]; [by left|done].
  - destruct Hd as [?|[e' [= -> <- _]]]; [done|]. right. by eexists.
  - by destruct Hd as [?|[? ?]].
Qed.

(** X15: the code table outlives the call: when an object that has
    encoded an input is given the empty input next, [encode] writes the
    table of the earlier input, followed by the empty line. *)
Theorem encode_empty_after_encode (input : text) :
  input ≠ [] →
  let cm := codeMap (buildTree (countCharFrequencies HuffmanTree_init input)) in
  (encode (encode HuffmanTree_init input).1 []).2 =
    {| opened := true;
       written := table_text (line_of <$> um_items cm) ++ [newline] |}.
Proof.
  intros Hne cm.
  set (t1 := (encode HuffmanTree_init input).1).
  assert (codeMap t1 = cm ∧ pq_elems (nodeHeap t1) = []) as [Hcm Hheap].
  { unfold t1, encode. fold cm.
    rewrite write_payload_written
      by apply (ct_total _ _ (encode_code_table input Hne)).
    split; [done|]. apply buildTree_heap_empty. }
  unfold encode at 1. rewrite countCharFrequencies_empty.
  rewrite buildTree_empty_heap by by apply pq_is_empty_true.
  simpl. rewrite write_table_written, Hcm. unfold endl. rewrite put_put.
  done.
Qed.

(** ** The name of the output file *)

Lemma string_find_Some (s : text) c pos i :
  string_find s c pos = Some i → pos ≤ i ∧ s !! i = Some c.
Proof.
  unfold string_find. destruct (list_find _ _) as [[k x]|] eqn:E; [|done].
  intros [= <-]. apply list_find_Some in E as (Hk & -> & _).
  rewrite lookup_drop in Hk. simpl. split; [lia|done].
Qed.

Lemma string_find_None (s : text) c pos :
  string_find s c pos = None → ∀ j, pos ≤ j → s !! j ≠ Some c.
Proof.
  unfold string_find. destruct (list_find _ _) as [[k x]|] eqn:E; [done|].
  intros _ j Hj Hs. apply list_find_None in E. rewrite Forall_forall in E.
  apply (E c); [|done]. apply list_elem_of_lookup. exists (j - pos).
  rewrite lookup_drop. by replace (pos + (j - pos)) with j by lia.
Qed.

Lemma last_dot_loop_spec fuel (fileName : text) : ∀ index,
  length fileName ≤ index + fuel →
  string_find fileName "."%char (last_dot_loop fuel fileName index + 1) = None ∧
  (last_dot_loop fuel fileName index = index ∨
   fileName !! last_dot_loop fuel fileName index = Some "."%char).
Proof.
  induction fuel as [|fuel IH]; intros index Hlen; simpl.
  - split; [|by left]. unfold string_find.
    rewrite drop_ge by lia. done.
  - destruct (string_find fileName "." (index + 1)) as [i|] eqn:Hfind.
    + apply string_find_Some in Hfind as [Hi Hdot].
      destruct (IH i) as [Hend Hat]; [lia|]. split; [done|].
      right. by destruct Hat as [->|Hat].
    + split; [done|by left].
Qed.

(** the search ends by itself: after the index found there is no ['.'] *)
Lemma last_dot_end (fileName : text) :
  string_find fileName "."%char (last_dot fileName + 1) = None ∧
  (last_dot fileName = 0 ∨ fileName !! last_dot fileName = Some "."%char).
Proof. unfold last_dot. apply last_dot_loop_spec. lia. Qed.

Lemma last_dot_stem (stem ext : text) :
  stem ≠ [] → "."%char ∉ ext →
  last_dot (stem ++ "."%char :: ext) = length stem.
Proof.
  intros Hstem Hext. set (f := stem ++ "."%char :: ext).
  destruct (last_dot_end f) as [Hend Hat].
  assert (f !! length stem = Some "."%char) as Hdot.
  { unfold f. by rewrite list_lookup_middle. }
  assert (length stem ≤ last_dot f) as Hle.
  { destruct (decide (length stem ≤ last_dot f)); [done|]. exfalso.
    apply (string_find_None _ _ _ Hend (length stem)); [lia|done]. }
  assert (0 < length stem) by (destruct stem; [done|simpl; lia]).
  destruct Hat as [Hat|Hat]; [lia|].
  destruct (decide (last_dot f = length stem)) as [|Hne]; [done|]. exfalso.
  apply Hext. unfold f in *.
  rewrite lookup_app_r in Hat by lia.
  destruct (last_dot (stem ++ "."%char :: ext) - length stem) as [|k] eqn:Hk; [lia|].
  simpl in Hat. by apply list_elem_of_lookup_2 in Hat.
Qed.

Lemma output_name_stem (stem ext suffix : text) :
  stem ≠ [] → "."%char ∉ ext →
  output_name (stem ++ "."%char :: ext) suffix = stem ++ suffix.
Proof.
  intros Hstem Hext. unfold output_name. rewrite last_dot_stem by done.
  by rewrite take_app_length.
Qed.

(** X16: when the name of the input file has a ['.'] after its first
    character, the name of the output file is what precedes the last
    ['.'] followed by [_encoded.txt] ([_decoded.txt] for [decode]); what
    follows the last ['.'] is dropped, whatever it is. *)
Theorem output_name_replaces_extension (stem ext : text) :
  stem ≠ [] → "."%char ∉ ext →
  output_name (stem ++ "."%char :: ext) encoded_suffix = stem ++ txt "_encoded.txt" ∧
  output_name (stem ++ "."%char :: ext) decoded_suffix = stem ++ txt "_decoded.txt".
Proof. intros Hstem Hext. split; by apply output_name_stem. Qed.

Lemma output_name_no_dot (fileName suffix : text) :
  "."%char ∉ drop 1 fileName → output_name fileName suffix = suffix.
Proof.
  intros Hno. unfold output_name.
  destruct (last_dot_end fileName) as [_ [->|Hat]]; [done|].
  destruct (last_dot fileName) as [|k]; [done|]. exfalso. apply Hno.
  apply list_elem_of_lookup. exists k. by rewrite lookup_drop.
Qed.

(** X17: when the name of the input file has no ['.'] after its first
    character, nothing of it is kept: the output file is [_encoded.txt]
    ([_decoded.txt] for [decode]), the same for all such names. *)
Theorem output_name_without_extension (fileName : text) :
  "."%char ∉ drop 1 fileName →
  output_name fileName encoded_suffix = txt "_encoded.txt" ∧
  output_name fileName decoded_suffix = txt "_decoded.txt".
Proof. intros Hno. split; by apply output_name_no_dot. Qed.

Lemma output_name_differs (fileName : text) c0 (suffix' : text) :
  c0 ≠ "."%char → "."%char ∈ suffix' →
  output_name fileName (c0 :: suffix') ≠ fileName.
Proof.
  intros Hc0 Hdot Heq. unfold output_name in Heq.
  rewrite <- (take_drop (last_dot fileName) fileName) in Heq at 3.
  apply app_inv_head in Heq.
  destruct (last_dot_end fileName) as [Hend [H0|Hat]].
  - rewrite H0 in Heq, Hend. rewrite drop_0 in Heq. subst fileName.
    apply list_elem_of_lookup in Hdot as [j Hj].
    by apply (string_find_None _ _ _ Hend (S j)); [lia|].
  - apply Hc0. rewrite <- (Nat.add_0_r (last_dot fileName)) in Hat.
    rewrite <- lookup_drop, <- Heq in Hat. by injection Hat.
Qed.

(** X18: the output file is never the input file: the name [encode] and
    [decode] make for their output differs from the name they are
    given. *)
Theorem output_name_not_input (fileName : text) :
  output_name fileName encoded_suffix ≠ fileName ∧
  output_name fileName decoded_suffix ≠ fileName.
Proof.
  split; apply output_name_differs; try discriminate;
    apply (bool_decide_unpack _); by vm_compute.
Qed.

(** ** [encode] and [decode] with their files *)

Lemma encode_file_unfold (t : HuffmanTree) (fs : files) (fileName : text) :
  encode_file t fs fileName =
    ((encode t (read_file fs fileName)).1,
     <[output_name fileName encoded_suffix :=
         written (encode t (read_file fs fileName)).2]> fs).
Proof.
  unfold encode_file, read_file.
  rewrite lookup_insert_ne by apply output_name_not_input.
  destruct (encode t _) as [t' out]. simpl. by rewrite insert_insert_eq.
Qed.

Lemma decode_file_unfold (t : HuffmanTree) (fs : files) (fileName : text) :
  decode_file t fs fileName =
    outcome_map (λ r, (r.1, <[output_name fileName decoded_suffix := written r.2]> fs))
      (decode t (read_file fs fileName)).
Proof.
  unfold decode_file, read_file.
  rewrite lookup_insert_ne by apply output_name_not_input.
  destruct (decode t _) as [[t' out]|e [t' out]|]; simpl; by rewrite ?insert_insert_eq.
Qed.

(** X19: [encode] with its files: it encodes the content the input file
    had (nothing, when there is no such file), puts the result in the
    output file and leaves every other file, the input file included, as
    it was - although the output file is created before the input is
    read. *)
Theorem encode_file_keeps_input (t : HuffmanTree) (fs : files) (fileName : text) :
  let out := output_name fileName encoded_suffix in
  let fs' := (encode_file t fs fileName).2 in
  fs' !! out = Some (written (encode t (read_file fs fileName)).2) ∧
  ∀ name, name ≠ out → fs' !! name = fs !! name.
Proof.
  simpl. rewrite encode_file_unfold. simpl. split.
  - apply lookup_insert_eq.
  - intros name Hne. by rewrite lookup_insert_ne.
Qed.

Lemma encode_file_stem (fs : files) (stem ext content : text) :
  stem ≠ [] → "."%char ∉ ext →
  fs !! (stem ++ "."%char :: ext) = Some content →
  (encode_file HuffmanTree_init fs (stem ++ "."%char :: ext)).2
  = <[stem ++ txt "_encoded.txt" := written (encode HuffmanTree_init content).2]> fs.
Proof.
  intros Hstem Hext Hfile. rewrite encode_file_unfold. cbn [snd].
  rewrite (output_name_stem stem ext) by done.
  unfold read_file. by rewrite Hfile.
Qed.

Lemma decode_file_stem (t2 : HuffmanTree) (fs : files) (stem file : text) :
  stem ≠ [] →
  decode_file t2 (<[stem ++ txt "_encoded.txt" := file]> fs) (stem ++ txt "_encoded.txt")
  = outcome_map
      (λ r, (r.1, <[stem ++ txt "_encoded_decoded.txt" := written r.2]>
                    (<[stem ++ txt "_encoded.txt" := file]> fs)))
      (decode t2 file).
Proof.
  intros Hstem.
  assert (output_name (stem ++ txt "_encoded.txt") decoded_suffix
          = stem ++ txt "_encoded_decoded.txt") as Hname.
  { change (stem ++ txt "_encoded.txt")
      with (stem ++ txt "_encoded" ++ "."%char :: txt "txt").
    rewrite app_assoc, output_name_stem.
    - by rewrite <- app_assoc.
    - by destruct stem.
    - apply (bool_decide_unpack _). by vm_compute. }
  rewrite decode_file_unfold, Hname. unfold read_file.
  by rewrite lookup_insert_eq.
Qed.

Lemma stem_names_differ (stem s1 s2 : text) :
  stem ++ "_"%char :: s2 ≠ stem ++ "."%char :: s1.
Proof. intros Heq. by apply app_inv_head in Heq. Qed.

Lemma files_round_trip (t2 : HuffmanTree) (fs : files) (stem ext content : text) :
  stem ≠ [] → "."%char ∉ ext →
  fs !! (stem ++ "."%char :: ext) = Some content →
  content ≠ [] → newline ∉ content →
  size (list_to_set content : gset ascii) ≤ 11 →
  let fs1 := (encode_file HuffmanTree_init fs (stem ++ "."%char :: ext)).2 in
  is_Some (fs1 !! (stem ++ txt "_encoded.txt")) ∧
  ∃ t3 fs2,
    decode_file t2 fs1 (stem ++ txt "_encoded.txt") = Returned (t3, fs2) ∧
    fs2 !! (stem ++ txt "_encoded_decoded.txt") = Some content ∧
    fs2 !! (stem ++ "."%char :: ext) = Some content.
Proof.
  intros Hstem Hext Hfile Hne Hnl Hfew fs1. subst fs1.
  rewrite (encode_file_stem fs stem ext content) by done.
  split; [rewrite lookup_insert_eq; by eexists|].
  rewrite decode_file_stem by done.
  destruct (decode_encode_few_letters content t2 Hne Hnl Hfew) as [t3 ->].
  cbn [outcome_map fst snd written]. eexists _, _. split; [done|].
  split; [apply lookup_insert_eq|].
  rewrite lookup_insert_ne by apply stem_names_differ.
  by rewrite lookup_insert_ne by apply stem_names_differ.
Qed.

(** X20: the round trip through the files: for a file [stem.ext] (the
    stem not empty, no ['.'] in the extension) whose content is not
    empty and has neither a newline nor more than eleven different
    characters, [encode] writes [stem_encoded.txt] and [decode] of that
    file writes [stem_encoded_decoded.txt] with the content of the
    input file, which is still there. *)
Theorem file_round_trip (t2 : HuffmanTree) (fs : files) (stem ext content : text) :
  stem ≠ [] → "."%char ∉ ext →
  fs !! (stem ++ "."%char :: ext) = Some content →
  content ≠ [] → newline ∉ content →
  size (list_to_set content : gset ascii) ≤ 11 →
  let fs1 := (encode_file HuffmanTree_init fs (stem ++ "."%char :: ext)).2 in
  is_Some (fs1 !! (stem ++ txt "_encoded.txt")) ∧
  ∃ t3 fs2,
    decode_file t2 fs1 (stem ++ txt "_encoded.txt") = Returned (t3, fs2) ∧
    fs2 !! (stem ++ txt "_encoded_decoded.txt") = Some content ∧
    fs2 !! (stem ++ "."%char :: ext) = Some content.
Proof. apply files_round_trip. Qed.

(** ** The input loops of [main] *)

Lemma file_name_loop_skips (fs : files) (skipped : list text) fileName later : ∀ cout,
  Forall (λ name, fs !! name = None) skipped → is_Some (fs !! fileName) →
  file_name_loop fs (skipped ++ fileName :: later) cout
  = Some (fileName,
          cout ++ mjoin (replicate (length skipped) [EnterFileName; ErrorOpening])
               ++ [EnterFileName]).
Proof.
  induction skipped as [|name skipped IH]; intros cout Hskip Hopen; simpl.
  - by rewrite decide_True.
  - apply Forall_cons in Hskip as [Hname Hskip].
    rewrite decide_False by (rewrite Hname; by intros [? ?]).
    rewrite IH by done. by rewrite <- !app_assoc.
Qed.

Lemma option_loop_more reads : ∀ cout option out later,
  option_loop reads cout = Some (option, out) →
  option_loop (reads ++ later) cout = Some (option, out).
Proof.
  induction reads as [|[f o'] reads IH]; intros cout o out l; simpl; [done|].
  destruct ((o' =? 0) || (2 <? o'))%N; [apply IH|done].
Qed.

Lemma option_loop_rejections reads : ∀ (rejected : list (bool * N)) cout failed option,
  reads = rejected ++ [(failed, option)] →
  Forall (λ r : bool * N, r.2 ≠ 1%N ∧ r.2 ≠ 2%N) rejected →
  option = 1%N ∨ option = 2%N →
  option_loop reads cout
  = Some (option, cout ++ mjoin (replicate (S (length rejected)) [Menu; InvalidInput])).
Proof.
  induction reads as [|[f o] reads IH]; intros rejected cout failed option Hreads Hrej Hopt.
  { by destruct rejected. }
  destruct rejected as [|[f' o'] rejected]; simplify_eq/=.
  - assert (option_rejected failed option = true) as ->.
    { unfold option_rejected. destruct Hopt as [->| ->]; by destruct failed. }
    assert (((option =? 0) || (2 <? option))%N = false) as ->.
    { by destruct Hopt as [->| ->]. }
    by rewrite <- app_assoc.
  - apply Forall_cons in Hrej as [[Ho1 Ho2] Hrej]. simpl in Ho1, Ho2.
    assert (option_rejected f' o' = true) as ->.
    { unfold option_rejected. apply N.eqb_neq in Ho1. rewrite Ho1.
      by destruct f'. }
    assert (((o' =? 0) || (2 <? o'))%N = true) as ->.
    { destruct (o' =? 0)%N eqn:H0; [done|]. apply N.eqb_neq in H0.
      simpl. apply N.ltb_lt. lia. }
    rewrite (IH rejected _ failed option eq_refl Hrej Hopt).
    by rewrite <- !app_assoc.
Qed.

Lemma option_loop_accepts (rejected : list (bool * N)) failed option later cout :
  Forall (λ r : bool * N, r.2 ≠ 1%N ∧ r.2 ≠ 2%N) rejected →
  option = 1%N ∨ option = 2%N →
  option_loop (rejected ++ (failed, option) :: later) cout
  = Some (option, cout ++ mjoin (replicate (S (length rejected)) [Menu; InvalidInput])).
Proof.
  intros Hrej Hopt.
  change (rejected ++ (failed, option) :: later)
    with (rejected ++ [(failed, option)] ++ later).
  rewrite app_assoc. apply option_loop_more.
  by apply (option_loop_rejections _ rejected cout failed option).
Qed.

(** X21: the menu accepts the first option that is 1 or 2 and asks again
    after every other one; after every extraction, the accepted one
    included, it prints "Invalid input.": the test
    [option != 1 || option != 2] holds of every number. *)
Theorem menu_reports_every_input_invalid
    (rejected : list (bool * N)) failed option (later : list (bool * N)) :
  Forall (λ r : bool * N, r.2 ≠ 1%N ∧ r.2 ≠ 2%N) rejected →
  option = 1%N ∨ option = 2%N →
  option_loop (rejected ++ (failed, option) :: later) []
  = Some (option, mjoin (replicate (S (length rejected)) [Menu; InvalidInput])).
Proof. intros Hrej Hopt. by rewrite option_loop_accepts. Qed.

(** X22: [main] up to its [switch]. It asks for a name until a file of
    that name opens, printing the error message after every name that
    does not, then for the option until it is 1 or 2; it gets to the
    [switch] with the first name that opened and the first option that
    is 1 or 2. *)
Theorem main_input_first_file_and_option
    (fs : files) (skipped : list text) fileName (later : list text)
    (rejected : list (bool * N)) failed option (later' : list (bool * N)) :
  Forall (λ name, fs !! name = None) skipped → is_Some (fs !! fileName) →
  Forall (λ r : bool * N, r.2 ≠ 1%N ∧ r.2 ≠ 2%N) rejected →
  option = 1%N ∨ option = 2%N →
  main_input fs (skipped ++ fileName :: later) (rejected ++ (failed, option) :: later')
  = Some (fileName, option,
          mjoin (replicate (length skipped) [EnterFileName; ErrorOpening])
          ++ [EnterFileName]
          ++ mjoin (replicate (S (length rejected)) [Menu; InvalidInput])).
Proof.
  intros Hskip Hopen Hrej Hopt. unfold main_input.
  rewrite file_name_loop_skips by done. cbn [mbind option_bind].
  rewrite option_loop_accepts by done. cbn [mbind option_bind].
  by rewrite <- !app_assoc.
Qed.

(** X24: nothing in [decode] catches the exception of [stoi], and the
    output file is there before the table is read: when the code table
    of the content of [stem.ext] has a code that [stoi] does not
    convert, [decode] of the file [stem_encoded.txt] that [encode] wrote
    ends in [out_of_range] and leaves [stem_encoded_decoded.txt] created
    and empty, with [stem.ext] as it was. *)
Theorem decode_file_uncaught_exception
    (t2 : HuffmanTree) (fs : files) (stem ext content : text) a code :
  stem ≠ [] → "."%char ∉ ext →
  fs !! (stem ++ "."%char :: ext) = Some content →
  content ≠ [] → newline ∉ content →
  codeMap (buildTree (countCharFrequencies HuffmanTree_init content)) !! a = Some code →
  stoi code = inl out_of_range →
  let fs1 := (encode_file HuffmanTree_init fs (stem ++ "."%char :: ext)).2 in
  ∃ t3 fs2,
    decode_file t2 fs1 (stem ++ txt "_encoded.txt") = Thrown out_of_range (t3, fs2) ∧
    fs2 !! (stem ++ txt "_encoded_decoded.txt") = Some [] ∧
    fs2 !! (stem ++ "."%char :: ext) = Some content.
Proof.
  intros Hstem Hext Hfile Hne Hnl Hcode Hthrow fs1. subst fs1.
  rewrite (encode_file_stem fs stem ext content) by done.
  rewrite decode_file_stem by done.
  destruct (decode_encode_throws content t2 a code Hne Hnl Hcode Hthrow)
    as [t3 ->].
  cbn [outcome_map fst snd written ofstream_open]. eexists _, _.
  split; [done|]. split; [apply lookup_insert_eq|].
  rewrite lookup_insert_ne by apply stem_names_differ.
  by rewrite lookup_insert_ne by apply stem_names_differ.
Qed.

(** ** Counts beyond [INT_MAX] *)

Lemma wrap_int_add_l x y : wrap_int (wrap_int x + y) = wrap_int (x + y).
Proof.
  unfold wrap_int. f_equal.
  replace ((x + 2 ^ 31) `mod` 2 ^ 32 - 2 ^ 31 + y + 2 ^ 31)%Z
    with ((x + 2 ^ 31) `mod` 2 ^ 32 + y)%Z by lia.
  rewrite Zplus_mod_idemp_l. f_equal. lia.
Qed.

Lemma count_chars_repeat n a (rest : text) : ∀ (cc : gmap ascii Z) k,
  cc !! a = Some k → wrap_int k = k →
  count_chars (replicate n a ++ rest) cc
  = count_chars rest (<[a := wrap_int (k + Z.of_nat n)]> cc).
Proof.
  induction n as [|n IH]; intros cc k Hk Hwrap.
  - simpl. rewrite Z.add_0_r, Hwrap. by rewrite insert_id.
  - cbn [replicate app count_chars]. rewrite Hk.
    rewrite (IH _ (int_add k 1)).
    + rewrite insert_insert_eq. unfold int_add. rewrite wrap_int_add_l.
      do 3 f_equal. lia.
    + apply lookup_insert_eq.
    + unfold int_add.
      rewrite <- (Z.add_0_r (wrap_int (k + 1))) at 1.
      by rewrite wrap_int_add_l, Z.add_0_r.
Qed.

Lemma count_chars_replicate_app n a (rest : text) :
  0 < n →
  count_chars (replicate n a ++ rest) ∅
  = count_chars rest {[a := wrap_int (Z.of_nat n)]}.
Proof.
  intros Hn. destruct n as [|n]; [lia|].
  cbn [replicate app count_chars]. rewrite lookup_empty.
  rewrite (count_chars_repeat n a rest _ 1) by (apply lookup_insert_eq || done).
  rewrite insert_insert_eq, insert_empty. do 3 f_equal. lia.
Qed.

Lemma frequency_app a (l1 l2 : text) :
  frequency a (l1 ++ l2) = (frequency a l1 + frequency a l2)%Z.
Proof. induction l1 as [|c l1 IH]; simpl; [done|]. rewrite IH. lia. Qed.

Lemma frequency_replicate a c n :
  frequency a (replicate n c) = if decide (c = a) then Z.of_nat n else 0%Z.
Proof.
  induction n as [|n IH]; simpl; [by case_decide|].
  rewrite IH. case_decide; lia.
Qed.

End Properties.

(** * Runs on concrete inputs

    The runs below use the containers [map_to_list_order] and
    [list_queue]. *)

(** C2, the claim as stated fails: after [encode] of the empty input the
    output file exists and holds one newline. *)
Lemma encode_empty_creates_output :
  let out := (encode HuffmanTree_init []).2 in
  ¬ (opened out = false ∧ written out = []) ∧
  opened out = true ∧ written out = [newline].
Proof. vm_compute. split; [intros [? _]; discriminate | done]. Qed.

(** C3: the record [a10]. [stoi] reads the code as the decimal number
    ten, and the descent tests the binary digits of ten from the lowest
    one (0, then 1): the letter node is the right child of the left child
    of the root. Read as a path, the code [10] leads to no node: the root
    has no right child. *)
Lemma reconstructTree_a10 :
  ∃ r, reconstructTree HuffmanTree_init (txt "a10") = Returned r ∧
       stoi (txt "10") = inr 10%Z ∧
       local_root r =
         CountNode 0 (CountNode 0 nullptr (HuffmanTreeNode "a" 0 nullptr nullptr))
                   nullptr ∧
       letter_of (node_at (local_root r) (txt "10")) = None ∧
       letter_of (node_at (local_root r) (txt "01")) = Some "a"%char.
Proof. eexists. split; [vm_compute; reflexivity|]. by vm_compute. Qed.

(** C4, the claim as stated fails: on the table [a0], [b] the run ends in an
    uncaught [invalid_argument] - no error is reported and returned - and
    at that point the record [b] is in both maps and the letter node of
    the record before it is in the tree: nothing was validated before the
    maps and the tree were changed. *)
Lemma reconstructTree_record_without_code :
  let file := txt "a0" ++ [newline] ++ txt "b" ++ [newline; newline] ++ txt "0" in
  (∃ r, reconstructTree HuffmanTree_init file = Thrown invalid_argument r ∧
        codeMap (members r) !! "b"%char = Some [] ∧
        reverseCodeMap (members r) !! [] = Some "b"%char ∧
        local_root r = CountNode 0 (HuffmanTreeNode "a" 0 nullptr nullptr) nullptr) ∧
  decoded (decode HuffmanTree_init file) = Thrown invalid_argument [].
Proof.
  split; [|by vm_compute].
  eexists. split; [vm_compute; reflexivity|]. by vm_compute.
Qed.

(** C6, the claim as stated fails: for the input [aaaa] the root of the
    tree of [buildTree] is a plain node with exactly one child, and so is
    the root of the tree [reconstructTree] makes of what [encode] wrote
    for that input. *)
Lemma trees_of_aaaa_one_child :
  let T := root (buildTree (countCharFrequencies HuffmanTree_init (txt "aaaa"))) in
  T = CountNode 4 nullptr (HuffmanTreeNode "a" 4 nullptr nullptr) ∧
  left_of T = nullptr ∧ right_of T ≠ nullptr ∧ ¬ huffman_shaped T ∧
  ∃ r,
    reconstructTree HuffmanTree_init (written (encode HuffmanTree_init (txt "aaaa")).2)
    = Returned r ∧
    local_root r = CountNode 0 nullptr (HuffmanTreeNode "a" 0 nullptr nullptr) ∧
    ¬ huffman_shaped (local_root r).
Proof.
  split; [by vm_compute|]. split; [by vm_compute|].
  split; [by vm_compute|]. split; [vm_compute; tauto|].
  eexists. split; [vm_compute; reflexivity|]. split; [by vm_compute|].
  vm_compute. tauto.
Qed.

(** C7, the claim as stated fails: the input that is one newline. The
    table line of the newline is empty, so [decode] takes it for the end
    of the table and decodes nothing. *)
Lemma newline_not_decoded :
  let out := (encode HuffmanTree_init [newline]).2 in
  written out = [newline; char1; newline; newline; char1] ∧
  decoded (decode HuffmanTree_init (written out)) = Returned [] ∧
  decoded (decode HuffmanTree_init (written out)) ≠ Returned [newline].
Proof. vm_compute. repeat split; discriminate. Qed.

(** C1: on [skewed_input] the letter [a] gets a code of eleven ['1'],
    which [stoi] reads as a decimal number above [INT_MAX]; [decode],
    given what [encode] wrote, ends in the [out_of_range] of [stoi] while
    it reads the table and writes nothing. *)
Lemma round_trip_skewed_input :
  let enc := encode HuffmanTree_init skewed_input in
  length skewed_input = 4095 ∧
  (newline ∉ skewed_input) ∧
  codeMap (fst enc) !! "a"%char = Some (replicate 11 char1) ∧
  stoi (replicate 11 char1) = inl out_of_range ∧
  decoded (decode HuffmanTree_init (written (snd enc))) = Thrown out_of_range [] ∧
  decoded (decode HuffmanTree_init (written (snd enc))) ≠ Returned skewed_input.
Proof.
  split; [by vm_compute|]. split.
  { apply (bool_decide_unpack _). by vm_compute. }
  split; [by vm_compute|]. split; [by vm_compute|].
  assert (decoded (decode HuffmanTree_init (written (encode HuffmanTree_init skewed_input).2))
          = Thrown out_of_range []) as H by (by vm_compute).
  split; [exact H|]. rewrite H. discriminate.
Qed.

(** The input of [n] times [a] followed by [bbc], for an [n] that is
    2^31: the count of [a] has wrapped to [INT_MIN], the heap takes [a]
    for the rarest letter, and [a] ends up deeper than [b]. *)
Lemma wrapped_count_codes (n : nat) :
  Z.of_nat n = 2147483648%Z →
  let input := replicate n "a"%char ++ txt "bbc" in
  let cm := codeMap (buildTree (countCharFrequencies HuffmanTree_init input)) in
  (frequency "b" input < frequency "a" input)%Z ∧
  cm !! "a"%char = Some (txt "11") ∧ cm !! "b"%char = Some (txt "0").
Proof.
  intros Hn input cm.
  assert (count_chars input ∅
          = count_chars (txt "bbc") {[ "a"%char := INT_MIN ]}) as Hcc.
  { unfold input. rewrite count_chars_replicate_app by lia. by rewrite Hn. }
  split.
  - unfold input. rewrite !frequency_app, !frequency_replicate, Hn.
    rewrite decide_False by discriminate. rewrite decide_True by reflexivity.
    by vm_compute.
  - unfold cm, countCharFrequencies. rewrite Hcc. by vm_compute.
Qed.

(** C8, the claim as stated fails, for an input longer than an [int]
    can count: 2^31 times [a], then [bbc].  [a] is the most frequent
    letter by far, and its code is longer than the code of [b]. *)
Lemma code_length_long_input :
  let input := replicate (Z.to_nat 2147483648) "a"%char ++ txt "bbc" in
  let cm := codeMap (buildTree (countCharFrequencies HuffmanTree_init input)) in
  (frequency "b" input < frequency "a" input)%Z ∧
  cm !! "a"%char = Some (txt "11") ∧ cm !! "b"%char = Some (txt "0") ∧
  ¬ length (txt "11") ≤ length (txt "0").
Proof.
  pose proof (wrapped_count_codes (Z.to_nat 2147483648)) as H.
  cbv zeta in H |- *.
  destruct H as (Hf & Ha & Hb); [by rewrite Z2Nat.id|].
  split; [exact Hf|]. split; [exact Ha|]. split; [exact Hb|].
  cbn [length txt String.list_ascii_of_string]. lia.
Qed.

(** ** The theorems at concrete inputs *)

Lemma decode_record_without_code_witness :
  ∃ e r,
    reconstructTree HuffmanTree_init (table_text [txt "a0"] ++ "b"%char :: [newline])
    = Thrown e r ∧
    decode HuffmanTree_init (table_text [txt "a0"] ++ "b"%char :: [newline])
    = Thrown e (members r, ofstream_open) ∧
    (codes_convert [txt "a0"] →
       e = invalid_argument ∧
       codeMap (members r) !! "b"%char = Some [] ∧
       reverseCodeMap (members r) !! [] = Some "b"%char ∧
       ([txt "a0"] ≠ [] → local_root r ≠ new_CountNode) ∧
       ∀ payload, ∃ r0,
         reconstructTree HuffmanTree_init (table_text [txt "a0"] ++ newline :: payload)
         = Returned r0 ∧
         local_root r = local_root r0 ∧
         codeMap (members r) = <["b"%char := []]> (codeMap (members r0)) ∧
         reverseCodeMap (members r) = <[[] := "b"%char]> (reverseCodeMap (members r0))).
Proof.
  apply (decode_record_without_code HuffmanTree_init [txt "a0"] "b"%char [newline]).
  - repeat constructor; [discriminate|].
    apply (bool_decide_unpack _). by vm_compute.
  - discriminate.
  - right. by exists [].
Defined.

Lemma encode_empty_input_witness :
  let t := (encode HuffmanTree_init (txt "aab")).1 in
  encode t [] =
    (t, {| opened := true;
           written := table_text (line_of <$> um_items (codeMap t)) ++ [newline] |}).
Proof.
  apply (proj1 encode_empty_input (encode HuffmanTree_init (txt "aab")).1).
  by vm_compute.
Defined.

Lemma prefix_code_invariant_witness :
  ¬ txt "0" `prefix_of` txt "10" ∧ ¬ txt "10" `prefix_of` txt "0".
Proof.
  apply (prefix_code_invariant
           (countCharFrequencies HuffmanTree_init (txt "aaaabbc")) "a"%char "b"%char).
  - by vm_compute.
  - by vm_compute.
  - by vm_compute.
  - discriminate.
Defined.

Lemma tree_nodes_children_and_counts_witness :
  huffman_shaped (root (buildTree (countCharFrequencies HuffmanTree_init (txt "aaaabbc")))).
Proof.
  apply (proj1 tree_nodes_children_and_counts (txt "aaaabbc") "a"%char "b"%char).
  - by vm_compute.
  - apply (bool_decide_unpack _). by vm_compute.
  - apply (bool_decide_unpack _). by vm_compute.
  - discriminate.
Defined.

Lemma single_symbol_round_trip_witness :
  ∃ t1 out code t3,
    encode HuffmanTree_init (replicate 4 "a"%char) = (t1, out) ∧
    codeMap t1 = {[ "a"%char := code ]} ∧ 1 ≤ length code ∧
    decode HuffmanTree_init (written out)
    = Returned (t3, {| opened := true; written := replicate 4 "a"%char |}).
Proof.
  apply (single_symbol_round_trip "a"%char 3 HuffmanTree_init). discriminate.
Defined.

Lemma code_length_monotone_witness : length (txt "0") ≤ length (txt "11").
Proof.
  apply (code_length_monotone (txt "aaaabbc") "a"%char "c"%char).
  - by vm_compute.
  - by vm_compute.
  - by vm_compute.
  - by vm_compute.
Defined.

Lemma decode_skips_whitespace_witness :
  decode HuffmanTree_init
    (table_text [txt "a0"; txt "b1"] ++ newline :: txt "0 1 1" ++ [newline])
  = decode HuffmanTree_init
      (table_text [txt "a0"; txt "b1"] ++ newline :: txt "011").
Proof.
  apply (decode_skips_whitespace HuffmanTree_init [txt "a0"; txt "b1"]).
  - repeat constructor; try discriminate;
      apply (bool_decide_unpack _); by vm_compute.
  - by vm_compute.
Defined.

(** ** The further properties at concrete inputs *)

Lemma countCharFrequencies_counts_witness :
  ∃ cc : gmap ascii Z,
    (∀ a, cc !! a = if decide (frequency a (txt "aab") = 0%Z) then None
                    else Some (frequency a (txt "aab"))) ∧
    pq_elems (nodeHeap (countCharFrequencies HuffmanTree_init (txt "aab")))
    ≡ₚ (λ e, new_HuffmanTreeNode e.1 e.2) <$> map_to_list cc.
Proof.
  apply (countCharFrequencies_counts (txt "aab")).
  - discriminate.
  - by vm_compute.
Defined.

Lemma buildTree_letters_and_total_witness :
  let T := root (buildTree (countCharFrequencies HuffmanTree_init (txt "aab"))) in
  count T = 3%Z ∧
  NoDup (leaves T).*1 ∧
  ∀ a w, (a, w) ∈ leaves T ↔ w = frequency a (txt "aab") ∧ (0 < w)%Z.
Proof.
  apply (buildTree_letters_and_total (txt "aab")).
  - discriminate.
  - by vm_compute.
Defined.

Lemma code_table_of_input_witness :
  let cm := codeMap (buildTree (countCharFrequencies HuffmanTree_init (txt "aab"))) in
  (∀ a, a ∈ txt "aab" ↔ is_Some (cm !! a)) ∧
  (∀ a c, cm !! a = Some c → c ≠ [] ∧ Forall is_bit c) ∧
  (∀ a1 a2 c, cm !! a1 = Some c → cm !! a2 = Some c → a1 = a2).
Proof. apply (code_table_of_input (txt "aab")). discriminate. Defined.

Lemma code_length_bound_witness :
  length (txt "11") ≤ Nat.max 1 (size (list_to_set (txt "aaaabbc") : gset ascii) - 1).
Proof.
  apply (code_length_bound (txt "aaaabbc") "c"%char).
  - discriminate.
  - by vm_compute.
Defined.

Lemma encode_output_format_witness :
  let cm := codeMap (buildTree (countCharFrequencies HuffmanTree_init (txt "aab"))) in
  (encode HuffmanTree_init (txt "aab")).2 =
    {| opened := true;
       written := table_text (line_of <$> um_items cm)
                  ++ newline :: (txt "aab" ≫= code_of cm) |} ∧
  codeMap (encode HuffmanTree_init (txt "aab")).1 = cm.
Proof. apply (encode_output_format (txt "aab")). discriminate. Defined.

Lemma round_trip_when_codes_convert_witness :
  ∃ t3, decode HuffmanTree_init (written (encode HuffmanTree_init (txt "aaaabbc")).2)
        = Returned (t3, {| opened := true; written := txt "aaaabbc" |}).
Proof.
  apply (round_trip_when_codes_convert (txt "aaaabbc") HuffmanTree_init).
  - discriminate.
  - apply (bool_decide_unpack _). by vm_compute.
  - intros a code Hcode.
    assert (map_Forall (λ _ c, Is_true (if stoi c is inr _ then true else false))
              (codeMap (buildTree (countCharFrequencies HuffmanTree_init (txt "aaaabbc")))))
      as Hall by (apply (bool_decide_unpack _); by vm_compute).
    specialize (Hall a code Hcode). simpl in Hall.
    destruct (stoi code) as [|v]; [done|by exists v].
Defined.

Lemma round_trip_few_letters_witness :
  ∃ t3, decode HuffmanTree_init (written (encode HuffmanTree_init (txt "aaaabbc")).2)
        = Returned (t3, {| opened := true; written := txt "aaaabbc" |}).
Proof.
  apply (round_trip_few_letters (txt "aaaabbc") HuffmanTree_init).
  - discriminate.
  - apply (bool_decide_unpack _). by vm_compute.
  - vm_compute. lia.
Defined.

Lemma decode_encode_long_code_witness :
  ∃ t3, decode HuffmanTree_init (written (encode HuffmanTree_init skewed_input).2)
        = Thrown out_of_range (t3, ofstream_open).
Proof.
  apply (decode_encode_long_code skewed_input HuffmanTree_init "a"%char
           (replicate 11 char1)).
  - discriminate.
  - apply (bool_decide_unpack _). by vm_compute.
  - by vm_compute.
  - by vm_compute.
Defined.

Lemma decode_drops_unfinished_code_witness :
  ∃ t3, decode HuffmanTree_init
          (written (encode HuffmanTree_init (txt "aaaabbc")).2 ++ txt "1")
        = Returned (t3, {| opened := true; written := txt "aaaabbc" |}).
Proof.
  apply (decode_drops_unfinished_code (txt "aaaabbc") HuffmanTree_init "c"%char
           (txt "11") (txt "1") (txt "1")).
  - discriminate.
  - apply (bool_decide_unpack _). by vm_compute.
  - intros a code Hcode.
    assert (map_Forall (λ _ c, Is_true (if stoi c is inr _ then true else false))
              (codeMap (buildTree (countCharFrequencies HuffmanTree_init (txt "aaaabbc")))))
      as Hall by (apply (bool_decide_unpack _); by vm_compute).
    specialize (Hall a code Hcode). simpl in Hall.
    destruct (stoi code) as [|v]; [done|by exists v].
  - by vm_compute.
  - reflexivity.
  - discriminate.
Defined.

Lemma decode_output_length_witness :
  opened {| opened := true; written := txt "aa" |} = true ∧
  length (written {| opened := true; written := txt "aa" |})
  ≤ length (table_text [txt "a0"] ++ newline :: txt "00").
Proof.
  apply (decode_output_length HuffmanTree_init _
           {| root := nullptr; nodeHeap := pq_empty;
              codeMap := {[ "a"%char := txt "0" ]};
              reverseCodeMap := {[ txt "0" := "a"%char ]} |}).
  by vm_compute.
Defined.

Lemma reconstructTree_maps_witness :
  ∃ r,
    reconstructTree HuffmanTree_init
      (table_text (line_of <$> [("a"%char, txt "0"); ("b"%char, txt "1")])
       ++ newline :: txt "01")
    = Returned r ∧
    input_rest r = txt "01" ∧
    ∀ a c, (codeMap (members r) !! a = Some c
            ↔ (a, c) ∈ [("a"%char, txt "0"); ("b"%char, txt "1")]) ∧
           (reverseCodeMap (members r) !! c = Some a
            ↔ (a, c) ∈ [("a"%char, txt "0"); ("b"%char, txt "1")]).
Proof.
  apply (reconstructTree_maps HuffmanTree_init
           [("a"%char, txt "0"); ("b"%char, txt "1")] (txt "01")).
  - repeat constructor; try discriminate;
      apply (bool_decide_unpack _); by vm_compute.
  - apply Forall_forall. repeat constructor; by eexists.
  - apply (bool_decide_unpack _). by vm_compute.
  - apply (bool_decide_unpack _). by vm_compute.
Defined.


Lemma decode_keeps_no_tree_witness :
  root {| root := nullptr; nodeHeap := pq_empty;
          codeMap := {[ "a"%char := txt "0" ]};
          reverseCodeMap := {[ txt "0" := "a"%char ]} |} = nullptr.
Proof.
  apply (decode_keeps_no_tree HuffmanTree_init
           (table_text [txt "a0"] ++ newline :: txt "00") _
           {| opened := true; written := txt "aa" |}).
  - reflexivity.
  - left. by vm_compute.
Defined.

Lemma encode_empty_after_encode_witness :
  let cm := codeMap (buildTree (countCharFrequencies HuffmanTree_init (txt "aab"))) in
  (encode (encode HuffmanTree_init (txt "aab")).1 []).2 =
    {| opened := true;
       written := table_text (line_of <$> um_items cm) ++ [newline] |}.
Proof. apply (encode_empty_after_encode (txt "aab")). discriminate. Defined.

Lemma output_name_replaces_extension_witness :
  output_name (txt "lorem" ++ "."%char :: txt "txt") encoded_suffix
  = txt "lorem" ++ txt "_encoded.txt" ∧
  output_name (txt "lorem" ++ "."%char :: txt "txt") decoded_suffix
  = txt "lorem" ++ txt "_decoded.txt".
Proof.
  apply (output_name_replaces_extension (txt "lorem") (txt "txt")).
  - discriminate.
  - apply (bool_decide_unpack _). by vm_compute.
Defined.

Lemma output_name_without_extension_witness :
  output_name (txt "lorem") encoded_suffix = txt "_encoded.txt" ∧
  output_name (txt "lorem") decoded_suffix = txt "_decoded.txt".
Proof.
  apply (output_name_without_extension (txt "lorem")).
  apply (bool_decide_unpack _). by vm_compute.
Defined.

Lemma file_round_trip_witness :
  let fs : files := {[ txt "lorem.txt" := txt "aaaabbc" ]} in
  let fs1 := (encode_file HuffmanTree_init fs (txt "lorem" ++ "."%char :: txt "txt")).2 in
  is_Some (fs1 !! (txt "lorem" ++ txt "_encoded.txt")) ∧
  ∃ t3 fs2,
    decode_file HuffmanTree_init fs1 (txt "lorem" ++ txt "_encoded.txt")
    = Returned (t3, fs2) ∧
    fs2 !! (txt "lorem" ++ txt "_encoded_decoded.txt") = Some (txt "aaaabbc") ∧
    fs2 !! (txt "lorem" ++ "."%char :: txt "txt") = Some (txt "aaaabbc").
Proof.
  apply (file_round_trip HuffmanTree_init {[ txt "lorem.txt" := txt "aaaabbc" ]}
           (txt "lorem") (txt "txt") (txt "aaaabbc")).
  - discriminate.
  - apply (bool_decide_unpack _). by vm_compute.
  - by vm_compute.
  - discriminate.
  - apply (bool_decide_unpack _). by vm_compute.
  - vm_compute. lia.
Defined.

Lemma menu_reports_every_input_invalid_witness :
  option_loop ([(false, 0%N); (true, 7%N)] ++ (false, 2%N) :: [(false, 1%N)]) []
  = Some (2%N, mjoin (replicate 3 [Menu; InvalidInput])).
Proof.
  apply (menu_reports_every_input_invalid [(false, 0%N); (true, 7%N)] false 2
           [(false, 1%N)]).
  - repeat constructor; discriminate.
  - right. reflexivity.
Defined.

Lemma main_input_first_file_and_option_witness :
  let fs : files := {[ txt "lorem.txt" := txt "aab" ]} in
  main_input fs ([txt "lorem"] ++ txt "lorem.txt" :: [])
    ([(true, 0%N)] ++ (false, 2%N) :: [])
  = Some (txt "lorem.txt", 2%N,
          mjoin (replicate 1 [EnterFileName; ErrorOpening])
          ++ [EnterFileName]
          ++ mjoin (replicate 2 [Menu; InvalidInput])).
Proof.
  apply (main_input_first_file_and_option {[ txt "lorem.txt" := txt "aab" ]}
           [txt "lorem"] (txt "lorem.txt") [] [(true, 0%N)] false 2 []).
  - repeat constructor.
  - apply (bool_decide_unpack _). by vm_compute.
  - repeat constructor; discriminate.
  - right. reflexivity.
Defined.

Lemma decode_file_uncaught_exception_witness :
  let fs : files := {[ txt "lorem.txt" := skewed_input ]} in
  let fs1 := (encode_file HuffmanTree_init fs (txt "lorem" ++ "."%char :: txt "txt")).2 in
  ∃ t3 fs2,
    decode_file HuffmanTree_init fs1 (txt "lorem" ++ txt "_encoded.txt")
    = Thrown out_of_range (t3, fs2) ∧
    fs2 !! (txt "lorem" ++ txt "_encoded_decoded.txt") = Some [] ∧
    fs2 !! (txt "lorem" ++ "."%char :: txt "txt") = Some skewed_input.
Proof.
  apply (decode_file_uncaught_exception HuffmanTree_init
           {[ txt "lorem.txt" := skewed_input ]}
           (txt "lorem") (txt "txt") skewed_input "a"%char (replicate 11 char1)).
  - discriminate.
  - apply (bool_decide_unpack _). by vm_compute.
  - by vm_compute.
  - discriminate.
  - apply (bool_decide_unpack _). by vm_compute.
  - by vm_compute.
  - by vm_compute.
Defined.
